(** * Iggy: wire codecs, response mappers, configuration validation and the
    create-stream handler, embedded in Rocq.

    Sources:
    - src/iggy/src/partitions/delete_partitions.rs  (DeletePartitions)
    - src/sdk/src/binary/mapper.rs                  (map_offset, map_messages,
                                                     map_to_stream, map_to_topic,
                                                     map_topic, map_to_partition,
                                                     map_streams, map_stream,
                                                     map_topics, map_clients)
    - src/server/src/configs/validators.rs          (the Validatable impls)
    - src/server/src/binary/handlers/streams/create_stream_handler.rs
    - src/server/src/archiver/disk.rs               (DiskArchiver)
    - src/server/src/compat/message_conversion/samplers/retained_batch_sampler.rs

    Machine integers (u8, u32, u64, u128, usize) are [N]; fixed-width values
    carry an explicit range hypothesis where a claim quantifies over them.
    Bytes are [Byte.byte]; Rust strings are [String.string].
    [usize] positions are [N] too, without wrap-around: on a 64-bit target
    the sums of a position (at most the payload length) and a u32 length
    never wrap. *)

From Stdlib Require Import List NArith Arith Lia Bool Ascii String Sorted Permutation.
From Stdlib Require Import Strings.Byte.
Import ListNotations.
Open Scope N_scope.

(** ** Outcomes of Rust code: a value, an [Err] returned through [?], or a
    panic (out-of-range slice indexing). *)

Inductive outcome (E A : Type) : Type :=
| Ok (a : A)
| Err (e : E)
| Panic.
Arguments Ok {E A} a.
Arguments Err {E A} e.
Arguments Panic {E A}.

Definition bind {E A B} (m : outcome E A) (k : A -> outcome E B) : outcome E B :=
  match m with
  | Ok a => k a
  | Err e => Err e
  | Panic => Panic
  end.

Notation "x <- m ;; k" := (bind m (fun x => k))
  (at level 61, m at next level, right associativity).

(** ** Bytes and little-endian integers *)

Definition u32_max : N := 2 ^ 32.
Definition u64_max : N := 2 ^ 64.

(** [n as u8] *)
Definition byte_of_N (n : N) : byte :=
  match Byte.of_N (n mod 256) with Some b => b | None => x00 end.

(** [to_le_bytes] of a [k]-byte integer. *)
Fixpoint le_bytes (k : nat) (n : N) : list byte :=
  match k with
  | O => []
  | S k' => byte_of_N n :: le_bytes k' (n / 256)
  end.

(** [from_le_bytes] of a byte array. *)
Fixpoint le_value (l : list byte) : N :=
  match l with
  | [] => 0
  | b :: l' => Byte.to_N b + 256 * le_value l'
  end.

(** [payload[a..b]]: panics unless [a <= b <= payload.len()]. *)
Definition slice {E} (p : list byte) (a b : N) : outcome E (list byte) :=
  if (a <=? b) && (b <=? N.of_nat (List.length p))
  then Ok (firstn (N.to_nat (b - a)) (skipn (N.to_nat a) p))
  else Panic.

(** [<[u8; k]>::try_from(slice)]: fails when the lengths differ. *)
Definition try_into_array {E} (err : E) (k : nat) (s : list byte)
  : outcome E (list byte) :=
  if (List.length s =? k)%nat then Ok s else Err err.

(** ** Strings *)

(** [str::split('|')]: the pieces between separators, the empty string
    giving one empty piece. *)
Fixpoint split_on (sep : ascii) (s : string) : list string :=
  match s with
  | EmptyString => [EmptyString]
  | String c rest =>
      let pieces := split_on sep rest in
      if Ascii.eqb c sep then EmptyString :: pieces
      else match pieces with
           | [] => [String c EmptyString]
           | p :: ps => String c p :: ps
           end
  end.

Definition digit_of (n : N) : ascii := ascii_of_N (48 + n).

(** Decimal digits, most significant first; [fuel] bounds the number of
    digits. *)
Fixpoint dec_digits (fuel : nat) (n : N) : string :=
  match fuel with
  | O => EmptyString
  | S f =>
      if n <? 10 then String (digit_of n) EmptyString
      else String.append (dec_digits f (n / 10)) (String (digit_of (n mod 10)) EmptyString)
  end.

(** [impl Display for u32] (and every unsigned integer): decimal, no
    leading zeros, "0" for zero. A number below [2^(log2 n + 1)] has at
    most [log2 n + 1] decimal digits. *)
Definition to_dec (n : N) : string :=
  dec_digits (S (N.to_nat (N.log2 n))) n.

(** [char::to_digit(10)] *)
Definition to_digit (c : ascii) : option N :=
  let k := N_of_ascii c in
  if (48 <=? k) && (k <=? 57) then Some (k - 48) else None.

(** [ParseIntError]'s kinds for an unsigned target. *)
Inductive IntErrorKind := Empty | InvalidDigit | PosOverflow.

(** The digit loop of [from_str_radix]: [checked_mul(10)] then
    [checked_add(d)], each checked against the width bound [bound]. *)
Fixpoint parse_digits (bound : N) (acc : N) (s : string)
  : outcome IntErrorKind N :=
  match s with
  | EmptyString => Ok acc
  | String c rest =>
      match to_digit c with
      | None => Err InvalidDigit
      | Some d =>
          if bound <=? acc * 10 then Err PosOverflow
          else if bound <=? acc * 10 + d then Err PosOverflow
          else parse_digits bound (acc * 10 + d) rest
      end
  end.

(** [<uN as FromStr>::from_str] for an unsigned type with values below
    [bound]: an optional leading '+', then at least one decimal digit. *)
Definition parse_unsigned (bound : N) (s : string) : outcome IntErrorKind N :=
  match s with
  | EmptyString => Err Empty
  | String c rest =>
      if Ascii.eqb c "+"%char then
        match rest with
        | EmptyString => Err InvalidDigit
        | _ => parse_digits bound 0 rest
        end
      else if Ascii.eqb c "-"%char then
        match rest with
        | EmptyString => Err InvalidDigit
        | _ => parse_digits bound 0 s
        end
      else parse_digits bound 0 s
  end.

Definition parse_u32 := parse_unsigned u32_max.

(** ** [iggy::error::Error], the variants the embedded code produces. *)

Inductive Error :=
| InvalidCommand
| InvalidStreamId
| InvalidTopicId
| CannotParseInt (kind : IntErrorKind)   (** [From<ParseIntError>] *)
| TryFromSliceError                      (** [From<TryFromSliceError>] *)
| InvalidUtf8.                           (** [From<Utf8Error>] *)

(** ** src/iggy/src/partitions/delete_partitions.rs *)

Record DeletePartitions := {
  stream_id : N;         (** u32 *)
  topic_id : N;          (** u32 *)
  partitions_count : N   (** u32 *)
}.

(** All three fields are u32 values. *)
Definition dp_wf (c : DeletePartitions) : Prop :=
  stream_id c < u32_max /\ topic_id c < u32_max /\ partitions_count c < u32_max.

Module DeletePartitionsImpl.

(** [impl Validatable for DeletePartitions] *)
Definition validate (c : DeletePartitions) : outcome Error unit :=
  if stream_id c =? 0 then Err InvalidStreamId
  else if topic_id c =? 0 then Err InvalidTopicId
  else Ok tt.

(** [u32::parse] followed by [?] *)
Definition parse_field (s : string) : outcome Error N :=
  match parse_u32 s with
  | Ok n => Ok n
  | Err k => Err (CannotParseInt k)
  | Panic => Panic
  end.

(** [impl FromStr for DeletePartitions] *)
Definition from_str (input : string) : outcome Error DeletePartitions :=
  let parts := split_on "|"%char input in
  if negb (List.length parts =? 3)%nat then Err InvalidCommand
  else
    stream_id <- parse_field (nth 0 parts EmptyString) ;;
    topic_id <- parse_field (nth 1 parts EmptyString) ;;
    partitions_count <- parse_field (nth 2 parts EmptyString) ;;
    let command := {| stream_id := stream_id; topic_id := topic_id;
                      partitions_count := partitions_count |} in
    _ <- validate command ;;
    Ok command.

(** [BytesSerializable::as_bytes] *)
Definition as_bytes (c : DeletePartitions) : list byte :=
  le_bytes 4 (stream_id c) ++ le_bytes 4 (topic_id c) ++ le_bytes 4 (partitions_count c).

(** [u32::from_le_bytes(bytes[a..b].try_into()?)] *)
Definition read_u32 (bytes : list byte) (a b : N) : outcome Error N :=
  s <- slice bytes a b ;;
  arr <- try_into_array TryFromSliceError 4 s ;;
  Ok (le_value arr).

(** [BytesSerializable::from_bytes] *)
Definition from_bytes (bytes : list byte) : outcome Error DeletePartitions :=
  if negb (List.length bytes =? 12)%nat then Err InvalidCommand
  else
    stream_id <- read_u32 bytes 0 4 ;;
    topic_id <- read_u32 bytes 4 8 ;;
    partitions_count <- read_u32 bytes 8 12 ;;
    let command := {| stream_id := stream_id; topic_id := topic_id;
                      partitions_count := partitions_count |} in
    _ <- validate command ;;
    Ok command.

(** [impl Display for DeletePartitions]: ["{}|{}|{}"] *)
Definition to_string (c : DeletePartitions) : string :=
  (to_dec (stream_id c) ++ "|" ++ to_dec (topic_id c) ++ "|"
   ++ to_dec (partitions_count c))%string.

End DeletePartitionsImpl.

(** ** Lemmas on the byte and string primitives *)

Lemma to_N_byte_of_N (n : N) : Byte.to_N (byte_of_N n) = n mod 256.
Proof.
  unfold byte_of_N.
  assert (Hlt : n mod 256 < 256) by (apply N.mod_lt; lia).
  pose proof (Byte.to_of_N_option_map (n mod 256)) as H.
  destruct (Byte.of_N (n mod 256)) as [b|] eqn:E; simpl in H.
  - destruct (n mod 256 <=? 255) eqn:L; congruence.
  - destruct (n mod 256 <=? 255) eqn:L; [discriminate|].
    apply N.leb_gt in L; lia.
Qed.

Lemma le_value_le_bytes (k : nat) (n : N) :
  le_value (le_bytes k n) = n mod 256 ^ N.of_nat k.
Proof.
  revert n; induction k as [|k IH]; intro n; simpl le_bytes; simpl le_value.
  - rewrite N.pow_0_r, N.mod_1_r; reflexivity.
  - rewrite to_N_byte_of_N, IH.
    rewrite Nat2N.inj_succ, N.pow_succ_r'.
    rewrite N.Div0.mod_mul_r; reflexivity.
Qed.

Lemma le_bytes_length (k : nat) (n : N) : List.length (le_bytes k n) = k.
Proof. revert n; induction k; intro n; simpl; auto. Qed.

Lemma le_value_u32 (n : N) : n < u32_max -> le_value (le_bytes 4 n) = n.
Proof.
  intro H; rewrite le_value_le_bytes; apply N.mod_small.
  unfold u32_max in H; simpl; lia.
Qed.

(** Settles every [a <=? b] of the goal that [lia] decides. *)
Ltac leb_solve :=
  repeat match goal with
  | |- context [?a <=? ?b] =>
      first [ replace (a <=? b) with false by (symmetry; apply N.leb_gt; lia)
            | replace (a <=? b) with true by (symmetry; apply N.leb_le; lia) ]
  end.

Definition is_digit (c : ascii) : bool :=
  match to_digit c with Some _ => true | None => false end.

Fixpoint digits_only (s : string) : bool :=
  match s with
  | EmptyString => true
  | String c r => is_digit c && digits_only r
  end.

Lemma to_digit_digit_of (d : N) : d < 10 -> to_digit (digit_of d) = Some d.
Proof.
  intro H; unfold to_digit, digit_of.
  rewrite N_ascii_embedding by lia.
  replace (48 <=? 48 + d) with true by (symmetry; apply N.leb_le; lia).
  replace (48 + d <=? 57) with true by (symmetry; apply N.leb_le; lia).
  cbn [andb]; rewrite N.add_comm, N.add_sub; reflexivity.
Qed.

Lemma parse_digits_app (bound acc : N) (s1 s2 : string) :
  parse_digits bound acc (s1 ++ s2) =
  bind (parse_digits bound acc s1) (fun a => parse_digits bound a s2).
Proof.
  revert acc; induction s1 as [|c r IH]; intro acc; simpl; [reflexivity|].
  destruct (to_digit c); [|reflexivity].
  destruct (bound <=? acc * 10); [reflexivity|].
  destruct (bound <=? acc * 10 + n); [reflexivity|]. apply IH.
Qed.

Lemma dec_digits_S (f : nat) (n : N) :
  dec_digits (S f) n =
  if n <? 10 then String (digit_of n) EmptyString
  else String.append (dec_digits f (n / 10)) (String (digit_of (n mod 10)) EmptyString).
Proof. reflexivity. Qed.

(** The decimal digits of [n] parse back to [n], are all digits and are
    not empty. *)
Lemma dec_digits_spec (bound : N) (f : nat) (n : N) :
  n < 10 ^ N.of_nat (S f) -> n < bound ->
  parse_digits bound 0 (dec_digits (S f) n) = Ok n /\
  digits_only (dec_digits (S f) n) = true /\
  dec_digits (S f) n <> EmptyString.
Proof.
  revert n; induction f as [|f IH]; intros n Hn Hb; rewrite dec_digits_S;
    destruct (n <? 10) eqn:L.
  - apply N.ltb_lt in L. simpl. unfold is_digit.
    rewrite to_digit_digit_of by exact L.
    leb_solve. repeat split; discriminate.
  - apply N.ltb_ge in L. simpl in Hn. lia.
  - apply N.ltb_lt in L. simpl. unfold is_digit.
    rewrite to_digit_digit_of by exact L.
    leb_solve. repeat split; discriminate.
  - apply N.ltb_ge in L.
    assert (Hq : n / 10 < 10 ^ N.of_nat (S f)).
    { apply N.Div0.div_lt_upper_bound.
      rewrite Nat2N.inj_succ, N.pow_succ_r' in Hn. exact Hn. }
    assert (Hqb : n / 10 < bound).
    { pose proof (N.div_lt n 10 ltac:(lia) ltac:(lia)); lia. }
    destruct (IH (n / 10) Hq Hqb) as (P & D & NE).
    assert (Hm : n mod 10 < 10) by (apply N.mod_lt; lia).
    pose proof (N.div_mod n 10 ltac:(lia)) as Hdm.
    split; [|split].
    + rewrite parse_digits_app, P; cbn [bind parse_digits].
      rewrite to_digit_digit_of by exact Hm.
      set (q := n / 10) in *; set (r := n mod 10) in *; leb_solve; f_equal; lia.
    + clear P NE. induction (dec_digits (S f) (n / 10)) as [|c r IHr]; simpl.
      * unfold is_digit; rewrite to_digit_digit_of by exact Hm; reflexivity.
      * simpl in D. apply andb_prop in D as [D1 D2]. rewrite D1; simpl. auto.
    + destruct (dec_digits (S f) (n / 10)); [congruence|discriminate].
Qed.

Lemma to_dec_spec (bound n : N) :
  n < bound ->
  parse_digits bound 0 (to_dec n) = Ok n /\
  digits_only (to_dec n) = true /\ to_dec n <> EmptyString.
Proof.
  intro Hb; unfold to_dec; apply dec_digits_spec; [|exact Hb].
  rewrite Nat2N.inj_succ, N2Nat.id.
  destruct (N.eq_dec n 0) as [->|Hn].
  - apply N.neq_0_lt_0, N.pow_nonzero; lia.
  - destruct (N.log2_spec n ltac:(lia)) as [_ H].
    eapply N.lt_le_trans; [exact H|].
    apply N.pow_le_mono_l; lia.
Qed.

Lemma parse_u32_to_dec (n : N) : n < u32_max -> parse_u32 (to_dec n) = Ok n.
Proof.
  intro Hb; destruct (to_dec_spec u32_max n Hb) as (P & D & NE).
  unfold parse_u32, parse_unsigned.
  destruct (to_dec n) as [|c r] eqn:E; [congruence|].
  simpl in D; apply andb_prop in D as [Dc _].
  destruct (Ascii.eqb c "+"%char) eqn:Ep.
  { apply Ascii.eqb_eq in Ep; subst c; discriminate. }
  destruct (Ascii.eqb c "-"%char) eqn:Em.
  { apply Ascii.eqb_eq in Em; subst c; discriminate. }
  exact P.
Qed.

Lemma split_on_digits (s t : string) :
  digits_only s = true ->
  split_on "|"%char (s ++ "|" ++ t)%string = s :: split_on "|"%char t.
Proof.
  change ("|" ++ t)%string with (String "|"%char t).
  induction s as [|c r IH]; intro D; simpl; [reflexivity|].
  simpl in D; apply andb_prop in D as [Dc Dr].
  rewrite IH by exact Dr.
  destruct (Ascii.eqb c "|"%char) eqn:E; [|reflexivity].
  apply Ascii.eqb_eq in E; subst c; discriminate.
Qed.

Lemma split_on_digits_end (s : string) :
  digits_only s = true -> split_on "|"%char s = [s].
Proof.
  induction s as [|c r IH]; intro D; simpl; [reflexivity|].
  simpl in D; apply andb_prop in D as [Dc Dr].
  rewrite IH by exact Dr.
  destruct (Ascii.eqb c "|"%char) eqn:E; [|reflexivity].
  apply Ascii.eqb_eq in E; subst c; discriminate.
Qed.

Module DeletePartitionsFacts.
Import DeletePartitionsImpl.

Lemma from_bytes_as_bytes (c : DeletePartitions) :
  dp_wf c -> from_bytes (as_bytes c) = (_ <- validate c ;; Ok c).
Proof.
  destruct c as [s t p]; unfold dp_wf; simpl; intros (Hs & Ht & Hp).
  unfold as_bytes; simpl stream_id; simpl topic_id; simpl partitions_count.
  pose proof (le_value_u32 s Hs) as Vs; pose proof (le_value_u32 t Ht) as Vt;
  pose proof (le_value_u32 p Hp) as Vp.
  pose proof (le_bytes_length 4 s) as Ls; pose proof (le_bytes_length 4 t) as Lt;
  pose proof (le_bytes_length 4 p) as Lp.
  destruct (le_bytes 4 s) as [|s0 [|s1 [|s2 [|s3 [|]]]]]; try discriminate.
  destruct (le_bytes 4 t) as [|t0 [|t1 [|t2 [|t3 [|]]]]]; try discriminate.
  destruct (le_bytes 4 p) as [|p0 [|p1 [|p2 [|p3 [|]]]]]; try discriminate.
  unfold from_bytes, read_u32, slice, try_into_array; cbn -[le_value validate].
  change (PosDef.Pos.to_nat 4) with 4%nat; change (PosDef.Pos.to_nat 8) with 8%nat.
  cbn -[le_value validate].
  rewrite Vs, Vt, Vp; reflexivity.
Qed.

Lemma from_str_to_string (c : DeletePartitions) :
  dp_wf c -> from_str (to_string c) = (_ <- validate c ;; Ok c).
Proof.
  destruct c as [s t p]; unfold dp_wf; simpl; intros (Hs & Ht & Hp).
  destruct (to_dec_spec u32_max s Hs) as (_ & Ds & _).
  destruct (to_dec_spec u32_max t Ht) as (_ & Dt & _).
  destruct (to_dec_spec u32_max p Hp) as (_ & Dp & _).
  unfold from_str, to_string; simpl stream_id; simpl topic_id; simpl partitions_count.
  rewrite (split_on_digits _ _ Ds), (split_on_digits _ _ Dt), (split_on_digits_end _ Dp).
  cbn [List.length Nat.eqb negb nth].
  unfold parse_field.
  rewrite (parse_u32_to_dec s Hs), (parse_u32_to_dec t Ht), (parse_u32_to_dec p Hp).
  reflexivity.
Qed.

Lemma validate_nonzero (c : DeletePartitions) :
  stream_id c <> 0 -> topic_id c <> 0 -> validate c = Ok tt.
Proof.
  intros Hs Ht; unfold validate.
  apply N.eqb_neq in Hs, Ht; rewrite Hs, Ht; reflexivity.
Qed.

End DeletePartitionsFacts.

(** ** src/sdk/src/binary/mapper.rs *)

Module Mapper.

(** [uK::from_le_bytes(payload[a..b].try_into()?)] with [K = 8 * k]. *)
Definition read_le (payload : list byte) (a b : N) (k : nat) : outcome Error N :=
  s <- slice payload a b ;;
  arr <- try_into_array TryFromSliceError k s ;;
  Ok (le_value arr).

Definition in_range (lo hi : N) (b : byte) : bool :=
  (lo <=? Byte.to_N b) && (Byte.to_N b <=? hi).

Definition cont (b : byte) : bool := in_range 128 191 b.

(** Second byte of a three-byte sequence: no overlong form after E0, no
    surrogate after ED. *)
Definition second3_ok (b0 b1 : byte) : bool :=
  if Byte.to_N b0 =? 224 then in_range 160 191 b1
  else if Byte.to_N b0 =? 237 then in_range 128 159 b1
  else cont b1.

(** Second byte of a four-byte sequence: no overlong form after F0, nothing
    beyond U+10FFFF after F4. *)
Definition second4_ok (b0 b1 : byte) : bool :=
  if Byte.to_N b0 =? 240 then in_range 144 191 b1
  else if Byte.to_N b0 =? 244 then in_range 128 143 b1
  else cont b1.

(** Well-formed UTF-8 (the Unicode standard's table of well-formed byte
    sequences), the check [std::str::from_utf8] performs. *)
Fixpoint utf8_valid (l : list byte) : bool :=
  match l with
  | [] => true
  | b0 :: r =>
      if in_range 0 127 b0 then utf8_valid r
      else if in_range 194 223 b0 then
        match r with
        | b1 :: r1 => cont b1 && utf8_valid r1
        | [] => false
        end
      else if in_range 224 239 b0 then
        match r with
        | b1 :: b2 :: r2 => second3_ok b0 b1 && cont b2 && utf8_valid r2
        | _ => false
        end
      else if in_range 240 244 b0 then
        match r with
        | b1 :: b2 :: b3 :: r3 =>
            second4_ok b0 b1 && cont b2 && cont b3 && utf8_valid r3
        | _ => false
        end
      else false
  end.

(** [from_utf8(bytes)?.to_string()]: a [String] is its UTF-8 bytes. *)
Definition from_utf8 (bytes : list byte) : outcome Error (list byte) :=
  if utf8_valid bytes then Ok bytes else Err InvalidUtf8.

(** Stable sort by a key, as [Vec::sort_by(|x, y| key(x).cmp(&key(y)))]
    (a stable sort: equal keys keep their order). *)
Section SortBy.
Context {A : Type} (key : A -> N).

Fixpoint insert_by (x : A) (l : list A) : list A :=
  match l with
  | [] => [x]
  | y :: ys => if key x <=? key y then x :: l else y :: insert_by x ys
  end.

Fixpoint sort_by (l : list A) : list A :=
  match l with
  | [] => []
  | x :: xs => insert_by x (sort_by xs)
  end.
End SortBy.

Module Offset.
Record Offset := { consumer_id : N; offset : N }.
End Offset.

Module Stream.
Record Stream := { id : N; topics_count : N; name : list byte }.
End Stream.

Module Topic.
Record Topic := { id : N; partitions_count : N; name : list byte }.
End Topic.

Module Partition.
Record Partition := { id : N; segments_count : N; current_offset : N; size_bytes : N }.
End Partition.

Module TopicDetails.
Record TopicDetails := {
  id : N; name : list byte; partitions_count : N;
  partitions : list Partition.Partition }.
End TopicDetails.

Module Message.
Record Message := {
  offset : N; timestamp : N; id : N; length : N; payload : list byte }.
End Message.

(** [map_offset] *)
Definition map_offset (payload : list byte) : outcome Error Offset.Offset :=
  consumer_id <- read_le payload 0 4 4 ;;
  offset <- read_le payload 4 12 8 ;;
  Ok {| Offset.consumer_id := consumer_id; Offset.offset := offset |}.

(** [map_to_stream] *)
Definition map_to_stream (payload : list byte) (position : N)
  : outcome Error (Stream.Stream * N) :=
  id <- read_le payload position (position + 4) 4 ;;
  topics_count <- read_le payload (position + 4) (position + 8) 4 ;;
  name_length <- read_le payload (position + 8) (position + 12) 4 ;;
  name_bytes <- slice payload (position + 12) (position + 12 + name_length) ;;
  name <- from_utf8 name_bytes ;;
  let read_bytes := 4 + 4 + 4 + name_length in
  Ok ({| Stream.id := id; Stream.topics_count := topics_count;
         Stream.name := name |}, read_bytes).

(** [map_to_topic] *)
Definition map_to_topic (payload : list byte) (position : N)
  : outcome Error (Topic.Topic * N) :=
  id <- read_le payload position (position + 4) 4 ;;
  partitions_count <- read_le payload (position + 4) (position + 8) 4 ;;
  name_length <- read_le payload (position + 8) (position + 12) 4 ;;
  name_bytes <- slice payload (position + 12) (position + 12 + name_length) ;;
  name <- from_utf8 name_bytes ;;
  let read_bytes := 4 + 4 + 4 + name_length in
  Ok ({| Topic.id := id; Topic.partitions_count := partitions_count;
         Topic.name := name |}, read_bytes).

(** [map_to_partition] *)
Definition map_to_partition (payload : list byte) (position : N)
  : outcome Error (Partition.Partition * N) :=
  id <- read_le payload position (position + 4) 4 ;;
  segments_count <- read_le payload (position + 4) (position + 8) 4 ;;
  current_offset <- read_le payload (position + 8) (position + 16) 8 ;;
  size_bytes <- read_le payload (position + 16) (position + 24) 8 ;;
  let read_bytes := 4 + 4 + 8 + 8 in
  Ok ({| Partition.id := id; Partition.segments_count := segments_count;
         Partition.current_offset := current_offset;
         Partition.size_bytes := size_bytes |}, read_bytes).

(** The [while position < length] loop of [map_topic]. Every iteration
    advances [position] by 24, so [length + 1] iterations of [fuel] are
    never exhausted. *)
Fixpoint map_partitions_loop (payload : list byte) (fuel : nat) (position : N)
  (partitions : list Partition.Partition)
  : outcome Error (list Partition.Partition) :=
  let length := N.of_nat (List.length payload) in
  match fuel with
  | O => Ok partitions
  | S fuel' =>
      if position <? length then
        pr <- map_to_partition payload position ;;
        let partitions := partitions ++ [fst pr] in
        let position := position + snd pr in
        if length <=? position then Ok partitions
        else map_partitions_loop payload fuel' position partitions
      else Ok partitions
  end.

(** The part of [map_topic] after the header: the partitions from
    [position], sorted by id, and the [TopicDetails] built from the header's
    id and name. *)
Definition topic_details (payload : list byte) (id : N) (name : list byte)
  (position : N) : outcome Error TopicDetails.TopicDetails :=
  partitions <- map_partitions_loop payload (S (List.length payload)) position [] ;;
  let partitions := sort_by Partition.id partitions in
  Ok {| TopicDetails.id := id; TopicDetails.name := name;
        TopicDetails.partitions_count := N.of_nat (List.length partitions);
        TopicDetails.partitions := partitions |}.

(** [map_topic], as written: the header is decoded by [map_to_stream]. *)
Definition map_topic (payload : list byte) : outcome Error TopicDetails.TopicDetails :=
  hdr <- map_to_stream payload 0 ;;
  topic_details payload (Stream.id (fst hdr)) (Stream.name (fst hdr)) (snd hdr).

(** [map_topic] with the header decoded by [map_to_topic] instead. *)
Definition map_topic_via_topic (payload : list byte)
  : outcome Error TopicDetails.TopicDetails :=
  hdr <- map_to_topic payload 0 ;;
  topic_details payload (Topic.id (fst hdr)) (Topic.name (fst hdr)) (snd hdr).

Definition PROPERTIES_SIZE : N := 36.

(** The [while position < length] loop of [map_messages]. Every iteration
    that continues advances [position] by at least [PROPERTIES_SIZE], so
    [length + 1] iterations of [fuel] are never exhausted. *)
Fixpoint map_messages_loop (payload : list byte) (fuel : nat) (position : N)
  (messages : list Message.Message) : outcome Error (list Message.Message) :=
  let length := N.of_nat (List.length payload) in
  match fuel with
  | O => Ok messages
  | S fuel' =>
      if position <? length then
        offset <- read_le payload position (position + 8) 8 ;;
        timestamp <- read_le payload (position + 8) (position + 16) 8 ;;
        id <- read_le payload (position + 16) (position + 32) 16 ;;
        message_length <- read_le payload (position + 32) (position + PROPERTIES_SIZE) 4 ;;
        let range_start := position + PROPERTIES_SIZE in
        let range_end := position + PROPERTIES_SIZE + message_length in
        if (length <? range_start) || (length <? range_end) then Ok messages
        else
          body <- slice payload range_start range_end ;;
          let total_size := PROPERTIES_SIZE + message_length in
          let position := position + total_size in
          let messages :=
            messages ++ [{| Message.offset := offset; Message.timestamp := timestamp;
                            Message.id := id; Message.length := message_length;
                            Message.payload := body |}] in
          if length <=? position + PROPERTIES_SIZE then Ok messages
          else map_messages_loop payload fuel' position messages
      else Ok messages
  end.

(** [map_messages]: the first four bytes are skipped, the messages decoded
    from position 4, then sorted by offset. *)
Definition map_messages (payload : list byte) : outcome Error (list Message.Message) :=
  match payload with
  | [] => Ok []
  | _ =>
      messages <- map_messages_loop payload (S (List.length payload)) 4 [] ;;
      Ok (sort_by Message.offset messages)
  end.

(** The wire layout [map_messages] reads for one message (used to build
    test payloads). *)
Definition encode_message (offset timestamp id : N) (body : list byte) : list byte :=
  le_bytes 8 offset ++ le_bytes 8 timestamp ++ le_bytes 16 id
  ++ le_bytes 4 (N.of_nat (List.length body)) ++ body.

End Mapper.

(** ** src/server/src/configs/validators.rs: [impl Validatable for SegmentConfig] *)

Module SegmentValidation.

Inductive ServerConfigError := InvalidConfiguration.

(** The field [validate] reads: [size : IggyByteSize], a u64 byte count
    ([as_bytes_u64]). *)
Record SegmentConfig := { size : N }.

(** Modelled from the spec: [segment::MAX_SIZE_BYTES] (a u32 constant of
    src/server/src/streaming/segments/segment.rs, not under src/), the cap
    [2^31 - 1] on [segment.size]. *)
Definition MAX_SIZE_BYTES : N := 2 ^ 31 - 1.

(** [if self.size.as_bytes_u64() as u32 > max_size_bytes { Err } else { Ok }]:
    [as u32] keeps the low 32 bits. *)
Definition validate_with (max_size_bytes : N) (c : SegmentConfig)
  : outcome ServerConfigError unit :=
  if max_size_bytes <? size c mod 2 ^ 32 then Err InvalidConfiguration
  else Ok tt.

Definition validate (c : SegmentConfig) : outcome ServerConfigError unit :=
  validate_with MAX_SIZE_BYTES c.

End SegmentValidation.

(** ** The other validators of src/server/src/configs/validators.rs *)

Module ConfigValidation.

(** [ServerConfigError] of src/server/src/server_error.rs. *)
Inductive ServerConfigError :=
| InvalidConfigurationProvider (provider_type : string)
| CannotLoadConfiguration
| InvalidConfiguration
| CacheConfigValidationFailure.

(** [iggy::utils::expiry::IggyExpiry] and [iggy::utils::topic_size::MaxTopicSize]
    (not under src/): the variants the validators match on, durations and
    sizes as [N]. *)
Module IggyExpiry.
Inductive IggyExpiry := ServerDefault | ExpireDuration (d : N) | NeverExpire.
End IggyExpiry.

Module MaxTopicSize.
Inductive MaxTopicSize := ServerDefault | Custom (size : N) | Unlimited.
End MaxTopicSize.

Definition u64_MAX : N := 2 ^ 64 - 1.

(** [IggyDuration::is_zero] *)
Definition is_zero (d : N) : bool := d =? 0.

(** [String::is_empty] *)
Definition is_empty (s : string) : bool :=
  match s with EmptyString => true | _ => false end.

(** [char::is_whitespace] on ASCII: U+0009..U+000D and the space. *)
Definition is_whitespace (c : ascii) : bool :=
  let n := N_of_ascii c in ((9 <=? n) && (n <=? 13)) || (n =? 32).

Fixpoint trim_start (s : string) : string :=
  match s with
  | EmptyString => EmptyString
  | String c r => if is_whitespace c then trim_start r else s
  end.

Fixpoint trim_end (s : string) : string :=
  match s with
  | EmptyString => EmptyString
  | String c r =>
      let r' := trim_end r in
      if is_empty r' && is_whitespace c then EmptyString else String c r'
  end.

(** [str::trim] *)
Definition trim (s : string) : string := trim_end (trim_start s).

(** [Option::is_none] *)
Definition is_none {A} (o : option A) : bool :=
  match o with None => true | Some _ => false end.

(** The configuration sections, with the fields the validators read. *)
Module Telemetry.
Record TelemetryConfig := {
  enabled : bool; service_name : string; logs_endpoint : string; traces_endpoint : string }.
End Telemetry.

Module Cache.
Record CacheConfig := { enabled : bool; size : N }.
End Cache.

Module Segment.
Record SegmentConfig := { size : N; message_expiry : IggyExpiry.IggyExpiry }.
End Segment.

Module Disk.
Record DiskArchiverConfig := { path : string }.
End Disk.

Module S3.
Record S3ArchiverConfig := {
  key_id : string; key_secret : string; endpoint : option string;
  region : option string; bucket : string }.
End S3.

Inductive ArchiverKind := KindDisk | KindS3.

Module Archiver.
Record ArchiverConfig := {
  enabled : bool; kind : ArchiverKind; disk : option Disk.DiskArchiverConfig;
  s3 : option S3.S3ArchiverConfig }.
End Archiver.

Module MessagesMaintenance.
Record MessagesMaintenanceConfig := { archiver_enabled : bool; interval : N }.
End MessagesMaintenance.

Module StateMaintenance.
Record StateMaintenanceConfig := { archiver_enabled : bool; interval : N }.
End StateMaintenance.

Module DataMaintenance.
Record DataMaintenanceConfig := {
  archiver : Archiver.ArchiverConfig;
  messages : MessagesMaintenance.MessagesMaintenanceConfig;
  state : StateMaintenance.StateMaintenanceConfig }.
End DataMaintenance.

Module Cleaner.
Record PersonalAccessTokenCleanerConfig := { enabled : bool; interval : N }.
End Cleaner.

Module PersonalAccessToken.
Record PersonalAccessTokenConfig := {
  max_tokens_per_user : N; cleaner : Cleaner.PersonalAccessTokenCleanerConfig }.
End PersonalAccessToken.

Inductive CompressionAlgorithm := CompressionNone | Gzip.

Module Server.
Record ServerConfig := {
  data_maintenance : DataMaintenance.DataMaintenanceConfig;
  personal_access_token : PersonalAccessToken.PersonalAccessTokenConfig;
  segment : Segment.SegmentConfig;
  cache : Cache.CacheConfig;
  compression : CompressionAlgorithm;
  telemetry : Telemetry.TelemetryConfig;
  topic_max_size : MaxTopicSize.MaxTopicSize;
  http_enabled : bool;
  jwt_access_token_expiry : IggyExpiry.IggyExpiry }.
End Server.

(** [CompressionConfig::validate]: only warns. *)
Definition validate_compression (c : CompressionAlgorithm) : outcome ServerConfigError unit :=
  Ok tt.

(** [TelemetryConfig::validate] *)
Definition validate_telemetry (t : Telemetry.TelemetryConfig)
  : outcome ServerConfigError unit :=
  if negb (Telemetry.enabled t) then Ok tt
  else if is_empty (trim (Telemetry.service_name t)) then Err InvalidConfiguration
  else if is_empty (Telemetry.logs_endpoint t) then Err InvalidConfiguration
  else if is_empty (Telemetry.traces_endpoint t) then Err InvalidConfiguration
  else Ok tt.

(** [CacheConfig::validate], with [sys.total_memory()] as an input; the
    75% check and the rest only log. *)
Definition validate_cache (total_memory : N) (c : Cache.CacheConfig)
  : outcome ServerConfigError unit :=
  let limit_bytes := Cache.size c in
  if total_memory <? limit_bytes then Err CacheConfigValidationFailure
  else Ok tt.

(** [SegmentConfig::validate] (see [SegmentValidation]) on the segment
    section's size. *)
Definition validate_segment (s : Segment.SegmentConfig) : outcome ServerConfigError unit :=
  match SegmentValidation.validate {| SegmentValidation.size := Segment.size s |} with
  | Ok _ => Ok tt
  | Err SegmentValidation.InvalidConfiguration => Err InvalidConfiguration
  | Panic => Panic
  end.

(** [ArchiverConfig::validate] *)
Definition validate_archiver (a : Archiver.ArchiverConfig) : outcome ServerConfigError unit :=
  if negb (Archiver.enabled a) then Ok tt
  else match Archiver.kind a with
  | KindDisk =>
      match Archiver.disk a with
      | None => Err InvalidConfiguration
      | Some disk =>
          if is_empty (Disk.path disk) then Err InvalidConfiguration else Ok tt
      end
  | KindS3 =>
      match Archiver.s3 a with
      | None => Err InvalidConfiguration
      | Some s3 =>
          if is_empty (S3.key_id s3) then Err InvalidConfiguration
          else if is_empty (S3.key_secret s3) then Err InvalidConfiguration
          else if is_none (S3.endpoint s3) && is_none (S3.region s3)
          then Err InvalidConfiguration
          else if is_empty (match S3.endpoint s3 with Some e => e | None => "" end)
                  && is_empty (match S3.region s3 with Some r => r | None => "" end)
          then Err InvalidConfiguration
          else if is_empty (S3.bucket s3) then Err InvalidConfiguration
          else Ok tt
      end
  end.

(** [MessagesMaintenanceConfig::validate] *)
Definition validate_messages_maintenance (m : MessagesMaintenance.MessagesMaintenanceConfig)
  : outcome ServerConfigError unit :=
  if MessagesMaintenance.archiver_enabled m && is_zero (MessagesMaintenance.interval m)
  then Err InvalidConfiguration else Ok tt.

(** [StateMaintenanceConfig::validate] *)
Definition validate_state_maintenance (m : StateMaintenance.StateMaintenanceConfig)
  : outcome ServerConfigError unit :=
  if StateMaintenance.archiver_enabled m && is_zero (StateMaintenance.interval m)
  then Err InvalidConfiguration else Ok tt.

(** [DataMaintenanceConfig::validate] *)
Definition validate_data_maintenance (d : DataMaintenance.DataMaintenanceConfig)
  : outcome ServerConfigError unit :=
  _ <- validate_archiver (DataMaintenance.archiver d) ;;
  _ <- validate_messages_maintenance (DataMaintenance.messages d) ;;
  _ <- validate_state_maintenance (DataMaintenance.state d) ;;
  Ok tt.

(** [PersonalAccessTokenConfig::validate] *)
Definition validate_personal_access_token (p : PersonalAccessToken.PersonalAccessTokenConfig)
  : outcome ServerConfigError unit :=
  if PersonalAccessToken.max_tokens_per_user p =? 0 then Err InvalidConfiguration
  else if Cleaner.enabled (PersonalAccessToken.cleaner p)
          && is_zero (Cleaner.interval (PersonalAccessToken.cleaner p))
  then Err InvalidConfiguration
  else Ok tt.

Definition is_server_default_expiry (e : IggyExpiry.IggyExpiry) : bool :=
  match e with IggyExpiry.ServerDefault => true | _ => false end.

(** [ServerConfig::validate] *)
Definition validate_server (total_memory : N) (c : Server.ServerConfig)
  : outcome ServerConfigError unit :=
  _ <- validate_data_maintenance (Server.data_maintenance c) ;;
  _ <- validate_personal_access_token (Server.personal_access_token c) ;;
  _ <- validate_segment (Server.segment c) ;;
  _ <- validate_cache total_memory (Server.cache c) ;;
  _ <- validate_compression (Server.compression c) ;;
  _ <- validate_telemetry (Server.telemetry c) ;;
  topic_size <- match Server.topic_max_size c with
                | MaxTopicSize.Custom size => Ok size
                | MaxTopicSize.Unlimited => Ok u64_MAX
                | MaxTopicSize.ServerDefault => Err InvalidConfiguration
                end ;;
  if is_server_default_expiry (Segment.message_expiry (Server.segment c))
  then Err InvalidConfiguration
  else if Server.http_enabled c
          && is_server_default_expiry (Server.jwt_access_token_expiry c)
  then Err InvalidConfiguration
  else if topic_size <? Segment.size (Server.segment c) then Err InvalidConfiguration
  else Ok tt.

End ConfigValidation.

(** ** src/server/src/archiver/disk.rs *)

Module DiskArchiver.

(** [ServerArchiverError] of src/server/src/server_error.rs; [io::Error]
    is kept abstract as a message. *)
Inductive ServerArchiverError :=
| FileToArchiveNotFound (file_path : string)
| CannotInitializeS3Archiver
| InvalidS3Credentials
| CannotArchiveFile (file_path : string)
| IoError (message : string).

(** [DiskArchiverConfig]: the archive directory. *)
Record DiskArchiverConfig := { path : string }.

Fixpoint last_char (s : string) : option ascii :=
  match s with
  | EmptyString => None
  | String c EmptyString => Some c
  | String _ r => last_char r
  end.

(** [Path::join] on Unix ([PathBuf::push]): an absolute [q] replaces [p];
    otherwise a separator is added unless [p] is empty or already ends
    with one. *)
Definition join (p q : string) : string :=
  match q with
  | String "/"%char _ => q
  | _ =>
      match last_char p with
      | Some c => if Ascii.eqb c "/"%char then (p ++ q)%string else (p ++ "/" ++ q)%string
      | None => q
      end
  end.

(** [Option::as_deref().unwrap_or_default()] on the base directory. *)
Definition unwrap_or_default (o : option string) : string :=
  match o with Some s => s | None => ""%string end.

Section Disk.
(** The file system, seen through the calls the archiver makes:
    [Path::exists], [Path::parent], [fs::create_dir_all] and [fs::copy]. *)
Variable FS : Type.
Variable path_exists : FS -> string -> bool.
Variable parent : string -> option string.
Variable create_dir_all : string -> FS -> outcome ServerArchiverError FS.
Variable copy : string -> string -> FS -> outcome ServerArchiverError FS.

(** [is_archived] *)
Definition is_archived (config : DiskArchiverConfig) (file : string)
  (base_directory : option string) (fs : FS) : outcome ServerArchiverError bool :=
  let base_directory := unwrap_or_default base_directory in
  let path := join (join (path config) base_directory) file in
  Ok (path_exists fs path).

(** The [for file in files] loop of [archive]. *)
Fixpoint archive_loop (config : DiskArchiverConfig) (files : list string)
  (base_directory : option string) (fs : FS) : outcome ServerArchiverError FS :=
  match files with
  | [] => Ok fs
  | file :: rest =>
      let source := file in
      if negb (path_exists fs source) then Err (FileToArchiveNotFound file)
      else
        let base := unwrap_or_default base_directory in
        let destination := join (join (path config) base) file in
        match parent destination with
        | None => Panic
        | Some dir =>
            fs1 <- create_dir_all dir fs ;;
            fs2 <- copy source destination fs1 ;;
            archive_loop config rest base_directory fs2
        end
  end.

(** [archive] *)
Definition archive (config : DiskArchiverConfig) (files : list string)
  (base_directory : option string) (fs : FS) : outcome ServerArchiverError FS :=
  archive_loop config files base_directory fs.
End Disk.

End DiskArchiver.

(** ** src/server/src/compat/message_conversion/samplers/retained_batch_sampler.rs *)

Module RetainedBatchSampler.

Inductive IoErrorKind := UnexpectedEof | OtherIo.

(** [ServerCompatError] of src/server/src/server_error.rs. *)
Inductive ServerCompatError :=
| InvalidMessageOffsetFormatConversion
| InvalidBatchBaseOffsetFormatConversion
| InvalidMessageFieldFormatConversionSampling
| CannotReadMessageBatchFormatConversion
| IoError (kind : IoErrorKind)
| TryFromSliceError
| SdkError.

Inductive BinarySchema := RetainedMessageSchema | RetainedMessageBatchSchema.

(** An open file: its bytes and the read cursor. *)
Definition File := (list byte * nat)%type.

(** [AsyncReadExt::read_u32_le]: four bytes at the cursor; at the end of
    the file it fails with [UnexpectedEof], the bytes it read consumed. *)
Definition read_u32_le (f : File) : outcome ServerCompatError N * File :=
  let '(contents, cursor) := f in
  if (cursor + 4 <=? List.length contents)%nat
  then (Ok (le_value (firstn 4 (skipn cursor contents))), (contents, (cursor + 4)%nat))
  else (Err (IoError UnexpectedEof), (contents, List.length contents)).

(** [read_exact] into a zeroed buffer of [n] bytes, from the start. *)
Definition read_exact (log : list byte) (n : nat) : outcome ServerCompatError (list byte) :=
  if (n <=? List.length log)%nat then Ok (firstn n log) else Err (IoError UnexpectedEof).

Definition is_err {E A} (r : outcome E A) : bool :=
  match r with Err _ => true | _ => false end.

(** [try_sample], the index and log files given by their contents;
    [snapshot_base_offset] is [RetainedMessageBatchSnapshot::try_from]
    followed by [.base_offset] (not under src/). *)
Definition try_sample (snapshot_base_offset : list byte -> outcome ServerCompatError N)
  (segment_start_offset : N) (index log : list byte)
  : outcome ServerCompatError BinarySchema :=
  let log_file_size := List.length log in
  if (log_file_size =? 0)%nat then Ok RetainedMessageBatchSchema
  else
    let '(r1, f1) := read_u32_le (index, 0%nat) in
    _ <- r1 ;;
    let '(r2, f2) := read_u32_le f1 in
    _ <- r2 ;;
    let '(second_index_offset, f3) := read_u32_le f2 in
    let '(second_end_position, _) := read_u32_le f3 in
    buffer <- (if is_err second_index_offset && is_err second_end_position
               then Ok log
               else match second_end_position with
                    | Ok buffer_size => read_exact log (N.to_nat buffer_size)
                    | _ => Panic
                    end) ;;
    base_offset <- snapshot_base_offset buffer ;;
    if negb (base_offset =? segment_start_offset)
    then Err InvalidBatchBaseOffsetFormatConversion
    else Ok RetainedMessageBatchSchema.

End RetainedBatchSampler.

(** ** src/server/src/binary/handlers/streams/create_stream_handler.rs *)

Module CreateStreamHandler.

Inductive IggyError :=
| StreamIdAlreadyExists
| StreamNameAlreadyExists
| IoError.

(** [iggy::streams::create_stream::CreateStream] *)
Record CreateStream := { stream_id : option N; name : string }.

(** [EntryCommand], the variant this handler appends. *)
Inductive EntryCommand := EntryCreateStream (c : CreateStream).

Record Session := { client_id : N; user_id : N }.

(** A stream of the broker's in-memory registry. *)
Record Stream := { id : N; stream_name : string }.

(** The state log: its entries [(user_id, command)] and whether the file
    can currently be written. *)
Record State := { entries : list (N * EntryCommand); writable : bool }.

(** The [SharedSystem] fields the handler touches. *)
Record System := { streams : list Stream; state : State }.

(** [mapper::map_stream]: the response encodes the created stream; its
    bytes do not matter here, so the response is the stream itself. *)
Definition Response := Stream.
Definition map_stream (s : Stream) : Response := s.

Section Handle.
(** [System::create_stream], [State::apply] and [Sender::send_ok_response]:
    the handler's collaborators, not under src/. *)
Variable create_stream :
  Session -> option N -> string -> System -> outcome IggyError (System * Stream).
Variable apply : N -> EntryCommand -> State -> outcome IggyError State.
Variable send_ok_response :
  Response -> list Response -> outcome IggyError (list Response).

(** [handle]: the result, the system after the call, and the responses sent
    on the connection. Each [?] returns with the state reached so far. *)
Definition handle (command : CreateStream) (session : Session)
  (system : System) (sent : list Response)
  : outcome IggyError unit * System * list Response :=
  match create_stream session (stream_id command) (name command) system with
  | Err e => (Err e, system, sent)
  | Panic => (Panic, system, sent)
  | Ok (system1, stream) =>
      let response := map_stream stream in
      match apply (user_id session) (EntryCreateStream command) (state system1) with
      | Err e => (Err e, system1, sent)
      | Panic => (Panic, system1, sent)
      | Ok st =>
          let system2 := {| streams := streams system1; state := st |} in
          match send_ok_response response sent with
          | Err e => (Err e, system2, sent)
          | Panic => (Panic, system2, sent)
          | Ok sent' => (Ok tt, system2, sent')
          end
      end
  end.
End Handle.

Fixpoint max_id (l : list Stream) : N :=
  match l with
  | [] => 0
  | s :: r => N.max (id s) (max_id r)
  end.

(** Modelled from the spec: [System::create_stream] (not under src/).
    Names are unique, an omitted id becomes [max_existing_id + 1], a given
    id must be free. *)
Definition create_stream_model (session : Session) (sid : option N) (nm : string)
  (system : System) : outcome IggyError (System * Stream) :=
  if existsb (fun s => String.eqb (stream_name s) nm) (streams system)
  then Err StreamNameAlreadyExists
  else
    let new_id := match sid with Some i => i | None => max_id (streams system) + 1 end in
    if existsb (fun s => id s =? new_id) (streams system)
    then Err StreamIdAlreadyExists
    else
      let stream := {| id := new_id; stream_name := nm |} in
      Ok ({| streams := streams system ++ [stream]; state := state system |}, stream).

(** Modelled from the spec: [State::apply] (not under src/) appends the
    entry to the state log, failing with an I/O error when the log cannot
    be written. *)
Definition apply_model (uid : N) (cmd : EntryCommand) (st : State)
  : outcome IggyError State :=
  if writable st then Ok {| entries := entries st ++ [(uid, cmd)]; writable := true |}
  else Err IoError.

(** Modelled from the spec: sending the success response on the
    connection. *)
Definition send_ok_response_model (r : Response) (sent : list Response)
  : outcome IggyError (list Response) :=
  Ok (sent ++ [r]).

Definition handle_model :=
  handle create_stream_model apply_model send_ok_response_model.

End CreateStreamHandler.

(** ** Lemmas on the mapper *)

Module MapperFacts.
Import Mapper.

Section SortedBy.
Context {A : Type} (key : A -> N).
Let R (a b : A) : Prop := key a <= key b.

Lemma insert_by_hd (y x : A) (l : list A) :
  HdRel R y l -> R y x -> HdRel R y (insert_by key x l).
Proof.
  intros H Hyx; destruct l as [|z zs]; simpl.
  - constructor; exact Hyx.
  - destruct (key x <=? key z); constructor; [exact Hyx|].
    inversion H; assumption.
Qed.

Lemma insert_by_sorted (x : A) (l : list A) :
  Sorted R l -> Sorted R (insert_by key x l).
Proof.
  induction l as [|y ys IH]; intro S; simpl.
  - repeat constructor.
  - destruct (key x <=? key y) eqn:E.
    + constructor; [exact S|]. constructor. apply N.leb_le; exact E.
    + apply Sorted_inv in S as [S H]. constructor; [apply IH, S|].
      apply insert_by_hd; [exact H|]. apply N.leb_gt in E. unfold R; lia.
Qed.

Lemma sort_by_sorted (l : list A) : Sorted R (sort_by key l).
Proof.
  induction l as [|x xs IH]; simpl; [constructor|].
  apply insert_by_sorted, IH.
Qed.
End SortedBy.

(** The two header decoders differ only in the record they build. *)
Definition stream_of_topic (t : Topic.Topic) : Stream.Stream :=
  {| Stream.id := Topic.id t; Stream.topics_count := Topic.partitions_count t;
     Stream.name := Topic.name t |}.

Lemma map_to_stream_as_topic (payload : list byte) (position : N) :
  map_to_stream payload position =
  match map_to_topic payload position with
  | Ok (t, n) => Ok (stream_of_topic t, n)
  | Err e => Err e
  | Panic => Panic
  end.
Proof.
  unfold map_to_stream, map_to_topic.
  destruct (read_le payload position (position + 4) 4); try reflexivity; simpl.
  destruct (read_le payload (position + 4) (position + 8) 4); try reflexivity; simpl.
  destruct (read_le payload (position + 8) (position + 12) 4); try reflexivity; simpl.
  destruct (slice payload (position + 12) (position + 12 + a1)) as [nm| |];
    try reflexivity; simpl.
  destruct (from_utf8 nm); reflexivity.
Qed.

Lemma read_le_ok (payload : list byte) (a b : N) (k : nat) :
  b = a + N.of_nat k -> (N.to_nat a + k <= List.length payload)%nat ->
  read_le payload a b k = Ok (le_value (firstn k (skipn (N.to_nat a) payload))).
Proof.
  intros -> Hle; unfold read_le, slice.
  leb_solve. cbn [andb bind].
  replace (N.to_nat (a + N.of_nat k - a)) with k by lia.
  unfold try_into_array.
  rewrite length_firstn, length_skipn.
  replace (Nat.min k (List.length payload - N.to_nat a) =? k)%nat with true
    by (symmetry; apply Nat.eqb_eq; lia).
  reflexivity.
Qed.

Lemma map_messages_sorted_ok (payload : list byte) (ms : list Message.Message) :
  map_messages payload = Ok ms ->
  Sorted (fun a b => Message.offset a <= Message.offset b) ms.
Proof.
  unfold map_messages; destruct payload as [|b bs].
  - intro H; injection H as <-; constructor.
  - destruct (map_messages_loop (b :: bs) _ 4 []); simpl; intro H;
      try discriminate.
    injection H as <-; apply sort_by_sorted.
Qed.

End MapperFacts.

(** ** More of src/sdk/src/binary/mapper.rs: the list decoders *)

Module MapperMore.
Import Mapper.

Module ClientInfo.
Record ClientInfo := { id : N; transport : string; address : list byte }.
End ClientInfo.

Module StreamDetails.
Record StreamDetails := {
  id : N; topics_count : N; name : list byte; topics : list Topic.Topic }.
End StreamDetails.

(** The [while position < length] loop shared by [map_streams],
    [map_topics], [map_stream] and [map_clients]: decode one item at
    [position], push it, advance by the bytes read, stop at the end. *)
Fixpoint map_items_loop {A} (decode : list byte -> N -> outcome Error (A * N))
  (payload : list byte) (fuel : nat) (position : N) (items : list A)
  : outcome Error (list A) :=
  let length := N.of_nat (List.length payload) in
  match fuel with
  | O => Ok items
  | S fuel' =>
      if position <? length then
        r <- decode payload position ;;
        let items := items ++ [fst r] in
        let position := position + snd r in
        if length <=? position then Ok items
        else map_items_loop decode payload fuel' position items
      else Ok items
  end.

(** [map_streams] *)
Definition map_streams (payload : list byte) : outcome Error (list Stream.Stream) :=
  match payload with
  | [] => Ok []
  | _ =>
      streams <- map_items_loop map_to_stream payload (S (List.length payload)) 0 [] ;;
      Ok (sort_by Stream.id streams)
  end.

(** [map_topics] *)
Definition map_topics (payload : list byte) : outcome Error (list Topic.Topic) :=
  match payload with
  | [] => Ok []
  | _ =>
      topics <- map_items_loop map_to_topic payload (S (List.length payload)) 0 [] ;;
      Ok (sort_by Topic.id topics)
  end.

(** [map_stream]: the stream header, then its topics. *)
Definition map_stream (payload : list byte) : outcome Error StreamDetails.StreamDetails :=
  hdr <- map_to_stream payload 0 ;;
  topics <- map_items_loop map_to_topic payload (S (List.length payload)) (snd hdr) [] ;;
  let topics := sort_by Topic.id topics in
  Ok {| StreamDetails.id := Stream.id (fst hdr);
        StreamDetails.topics_count := Stream.topics_count (fst hdr);
        StreamDetails.name := Stream.name (fst hdr);
        StreamDetails.topics := topics |}.

(** [payload[i]]: panics unless [i < payload.len()]. *)
Definition index (payload : list byte) (i : N) : outcome Error byte :=
  match nth_error payload (N.to_nat i) with
  | Some b => Ok b
  | None => Panic
  end.

Definition transport_name (t : byte) : string :=
  match Byte.to_N t with
  | 1 => "TCP"
  | 2 => "QUIC"
  | _ => "Unknown"
  end.

(** The body of [map_clients]' loop: one client at [position]. *)
Definition map_to_client (payload : list byte) (position : N)
  : outcome Error (ClientInfo.ClientInfo * N) :=
  id <- read_le payload position (position + 4) 4 ;;
  transport <- index payload (position + 4) ;;
  let transport := transport_name transport in
  address_length <- read_le payload (position + 5) (position + 9) 4 ;;
  address_bytes <- slice payload (position + 9) (position + 9 + address_length) ;;
  address <- from_utf8 address_bytes ;;
  Ok ({| ClientInfo.id := id; ClientInfo.transport := transport;
         ClientInfo.address := address |}, 4 + 1 + 4 + address_length).

(** [map_clients] *)
Definition map_clients (payload : list byte) : outcome Error (list ClientInfo.ClientInfo) :=
  match payload with
  | [] => Ok []
  | _ =>
      clients <- map_items_loop map_to_client payload (S (List.length payload)) 0 [] ;;
      Ok (sort_by ClientInfo.id clients)
  end.

(** The wire layouts the decoders read (the server's encoders are not
    under src/); used to state round trips. *)
Definition encode_stream (s : Stream.Stream) : list byte :=
  le_bytes 4 (Stream.id s) ++ le_bytes 4 (Stream.topics_count s)
  ++ le_bytes 4 (N.of_nat (List.length (Stream.name s))) ++ Stream.name s.

Definition encode_topic (t : Topic.Topic) : list byte :=
  le_bytes 4 (Topic.id t) ++ le_bytes 4 (Topic.partitions_count t)
  ++ le_bytes 4 (N.of_nat (List.length (Topic.name t))) ++ Topic.name t.


Definition encode_client (id : N) (transport : byte) (address : list byte) : list byte :=
  le_bytes 4 id ++ [transport] ++ le_bytes 4 (N.of_nat (List.length address)) ++ address.

Definition encode_msg (m : Message.Message) : list byte :=
  encode_message (Message.offset m) (Message.timestamp m) (Message.id m) (Message.payload m).

(** Field ranges of the encoded values. *)
Definition stream_wf (s : Stream.Stream) : Prop :=
  Stream.id s < u32_max /\ Stream.topics_count s < u32_max /\
  N.of_nat (List.length (Stream.name s)) < u32_max /\ utf8_valid (Stream.name s) = true.

Definition topic_wf (t : Topic.Topic) : Prop :=
  Topic.id t < u32_max /\ Topic.partitions_count t < u32_max /\
  N.of_nat (List.length (Topic.name t)) < u32_max /\ utf8_valid (Topic.name t) = true.


Definition message_wf (m : Message.Message) : Prop :=
  Message.offset m < u64_max /\ Message.timestamp m < u64_max /\
  Message.id m < 2 ^ 128 /\ Message.length m = N.of_nat (List.length (Message.payload m)) /\
  Message.length m < u32_max.

(** The messages [map_messages] keeps from a well-formed payload: all of
    them, except a last message (of two or more) whose body is empty. *)
Definition kept_messages (ms : list Message.Message) : list Message.Message :=
  match ms with
  | [] | [_] => ms
  | _ => match Message.payload (last ms (Message.Build_Message 0 0 0 0 [])) with
         | [] => removelast ms
         | _ => ms
         end
  end.

(** A client as the server sends it: id, transport code, address. *)
Definition client_wf (c : N * byte * list byte) : Prop :=
  let '(i, _, a) := c in
  i < u32_max /\ N.of_nat (List.length a) < u32_max /\ utf8_valid a = true.

Definition client_view (c : N * byte * list byte) : ClientInfo.ClientInfo :=
  let '(i, t, a) := c in
  {| ClientInfo.id := i; ClientInfo.transport := transport_name t;
     ClientInfo.address := a |}.

Definition encode_client' (c : N * byte * list byte) : list byte :=
  let '(i, t, a) := c in encode_client i t a.

End MapperMore.

(** Decoding lemmas: each decoder reads back what the matching encoder wrote. *)

Module MapperRoundTrip.
Import Mapper MapperMore.

Lemma skipn_after (p s rest : list byte) (n : nat) :
  skipn n p = s ++ rest -> skipn (n + List.length s) p = rest.
Proof.
  intro H. rewrite Nat.add_comm, <- skipn_skipn, H, skipn_app, skipn_all,
    Nat.sub_diag; reflexivity.
Qed.

Lemma skipn_bound (p s rest : list byte) (n : nat) :
  skipn n p = s ++ rest -> (n <= List.length p)%nat ->
  (n + List.length s + List.length rest = List.length p)%nat.
Proof.
  intros H Hn. pose proof (length_skipn n p) as L.
  rewrite H, length_app in L. lia.
Qed.

Lemma read_le_at (p rest : list byte) (a b : N) (k : nat) (v : N) :
  skipn (N.to_nat a) p = le_bytes k v ++ rest ->
  (N.to_nat a <= List.length p)%nat ->
  b = a + N.of_nat k -> v < 256 ^ N.of_nat k ->
  read_le p a b k = Ok v.
Proof.
  intros H Ha Hb Hv.
  pose proof (skipn_bound _ _ _ _ H Ha) as L. rewrite le_bytes_length in L.
  rewrite (MapperFacts.read_le_ok p a b k Hb) by lia.
  rewrite H, firstn_app, le_bytes_length, Nat.sub_diag, firstn_O, app_nil_r.
  rewrite <- (le_bytes_length k v) at 1. rewrite firstn_all.
  rewrite le_value_le_bytes, N.mod_small by exact Hv; reflexivity.
Qed.

Lemma slice_at (p s rest : list byte) (a b : N) :
  skipn (N.to_nat a) p = s ++ rest ->
  (N.to_nat a <= List.length p)%nat ->
  b = a + N.of_nat (List.length s) ->
  slice (E := Error) p a b = Ok s.
Proof.
  intros H Ha ->.
  pose proof (skipn_bound _ _ _ _ H Ha) as L.
  unfold slice. leb_solve. cbn [andb].
  replace (N.to_nat (a + N.of_nat (List.length s) - a)) with (List.length s) by lia.
  rewrite H, firstn_app, Nat.sub_diag, firstn_O, app_nil_r, firstn_all.
  reflexivity.
Qed.

(** Moves the decoding position past a decoded field. *)
Ltac advance H n :=
  let H' := fresh "H" in
  pose proof (skipn_after _ _ _ _ H) as H'; rewrite ?le_bytes_length in H';
  replace (N.to_nat _ + _)%nat with (N.to_nat n) in H' by lia.

Lemma u32_pow (v : N) : v < u32_max -> v < 256 ^ N.of_nat 4.
Proof. unfold u32_max; simpl; lia. Qed.

Lemma u64_pow (v : N) : v < u64_max -> v < 256 ^ N.of_nat 8.
Proof. unfold u64_max; simpl; lia. Qed.

Lemma map_to_stream_at (p rest : list byte) (pos : N) (s : Stream.Stream) :
  skipn (N.to_nat pos) p = encode_stream s ++ rest ->
  (N.to_nat pos <= List.length p)%nat -> stream_wf s ->
  map_to_stream p pos = Ok (s, N.of_nat (List.length (encode_stream s))).
Proof.
  destruct s as [i c nm]; unfold stream_wf, encode_stream;
    cbn [Stream.id Stream.topics_count Stream.name].
  intros H Hp (Hi & Hc & Hn & Hu).
  rewrite <- !app_assoc in H.
  pose proof (skipn_bound _ _ _ _ H Hp) as L; rewrite !length_app, !le_bytes_length in L.
  unfold map_to_stream.
  rewrite (read_le_at p _ pos (pos + 4) 4 i H Hp eq_refl (u32_pow _ Hi)); cbn [bind].
  advance H (pos + 4).
  rewrite (read_le_at p _ (pos + 4) (pos + 8) 4 c H0 ltac:(lia) ltac:(simpl; lia) (u32_pow _ Hc)); cbn [bind].
  advance H0 (pos + 8).
  rewrite (read_le_at p _ (pos + 8) (pos + 12) 4 _ H1 ltac:(lia) ltac:(simpl; lia) (u32_pow _ Hn)); cbn [bind].
  advance H1 (pos + 12).
  rewrite (slice_at p nm rest (pos + 12) (pos + 12 + N.of_nat (List.length nm)) H2
    ltac:(lia) eq_refl); cbn [bind].
  unfold from_utf8; rewrite Hu; cbn [bind].
  rewrite !length_app, !le_bytes_length. f_equal. f_equal. lia.
Qed.

Lemma map_to_topic_at (p rest : list byte) (pos : N) (t : Topic.Topic) :
  skipn (N.to_nat pos) p = encode_topic t ++ rest ->
  (N.to_nat pos <= List.length p)%nat -> topic_wf t ->
  map_to_topic p pos = Ok (t, N.of_nat (List.length (encode_topic t))).
Proof.
  destruct t as [i c nm]; unfold topic_wf, encode_topic;
    cbn [Topic.id Topic.partitions_count Topic.name].
  intros H Hp (Hi & Hc & Hn & Hu).
  rewrite <- !app_assoc in H.
  pose proof (skipn_bound _ _ _ _ H Hp) as L; rewrite !length_app, !le_bytes_length in L.
  unfold map_to_topic.
  rewrite (read_le_at p _ pos (pos + 4) 4 i H Hp eq_refl (u32_pow _ Hi)); cbn [bind].
  advance H (pos + 4).
  rewrite (read_le_at p _ (pos + 4) (pos + 8) 4 c H0 ltac:(lia) ltac:(simpl; lia) (u32_pow _ Hc)); cbn [bind].
  advance H0 (pos + 8).
  rewrite (read_le_at p _ (pos + 8) (pos + 12) 4 _ H1 ltac:(lia) ltac:(simpl; lia) (u32_pow _ Hn)); cbn [bind].
  advance H1 (pos + 12).
  rewrite (slice_at p nm rest (pos + 12) (pos + 12 + N.of_nat (List.length nm)) H2
    ltac:(lia) eq_refl); cbn [bind].
  unfold from_utf8; rewrite Hu; cbn [bind].
  rewrite !length_app, !le_bytes_length. f_equal. f_equal. lia.
Qed.


Lemma map_to_client_at (p rest : list byte) (pos : N) (c : N * byte * list byte) :
  skipn (N.to_nat pos) p = encode_client' c ++ rest ->
  (N.to_nat pos <= List.length p)%nat -> client_wf c ->
  map_to_client p pos = Ok (client_view c, N.of_nat (List.length (encode_client' c))).
Proof.
  destruct c as [[i t] a]; unfold client_wf, encode_client', encode_client, client_view.
  intros H Hp (Hi & Hn & Hu).
  rewrite <- !app_assoc in H.
  pose proof (skipn_bound _ _ _ _ H Hp) as L; rewrite !length_app, !le_bytes_length in L.
  simpl in L.
  unfold map_to_client.
  rewrite (read_le_at p _ pos (pos + 4) 4 i H Hp eq_refl (u32_pow _ Hi)); cbn [bind].
  advance H (pos + 4).
  assert (Ht : index p (pos + 4) = Ok t).
  { unfold index. rewrite <- (Nat.add_0_r (N.to_nat (pos + 4))), <- nth_error_skipn, H0.
    reflexivity. }
  rewrite Ht; cbn [bind].
  pose proof (skipn_after _ _ _ _ H0) as H1; simpl List.length in H1.
  replace (N.to_nat (pos + 4) + 1)%nat with (N.to_nat (pos + 5)) in H1 by lia.
  rewrite (read_le_at p _ (pos + 5) (pos + 9) 4 _ H1 ltac:(lia) ltac:(simpl; lia)
             (u32_pow _ Hn)); cbn [bind].
  advance H1 (pos + 9).
  rewrite (slice_at p a rest (pos + 9) (pos + 9 + N.of_nat (List.length a)) H2
    ltac:(lia) eq_refl); cbn [bind].
  unfold from_utf8; rewrite Hu; cbn [bind].
  rewrite !length_app, !le_bytes_length. simpl List.length. f_equal. f_equal. lia.
Qed.

(** The item loop decodes a payload made of encoded items, one after the
    other, into those items. *)
Ltac cmp_solve :=
  leb_solve;
  repeat match goal with
  | |- context [?a <? ?b] =>
      first [ replace (a <? b) with false by (symmetry; apply N.ltb_ge; lia)
            | replace (a <? b) with true by (symmetry; apply N.ltb_lt; lia) ]
  end.

Section ItemsLoop.
Context {A B : Type} (decode : list byte -> N -> outcome Error (A * N))
  (enc : B -> list byte) (view : B -> A) (wf : B -> Prop).
Hypothesis decode_at : forall p rest pos b,
  skipn (N.to_nat pos) p = enc b ++ rest -> (N.to_nat pos <= List.length p)%nat ->
  wf b -> decode p pos = Ok (view b, N.of_nat (List.length (enc b))).
Hypothesis enc_nonempty : forall b, (0 < List.length (enc b))%nat.

Lemma items_length_le (items : list B) :
  (List.length items <= List.length (List.concat (map enc items)))%nat.
Proof.
  induction items as [|b bs IH]; simpl; [lia|].
  rewrite length_app. specialize (enc_nonempty b). lia.
Qed.

Lemma map_items_loop_ok (items : list B) (p : list byte) (fuel : nat) (pos : N)
  (acc : list A) :
  skipn (N.to_nat pos) p = List.concat (map enc items) ->
  (N.to_nat pos <= List.length p)%nat -> Forall wf items ->
  (List.length items < fuel)%nat ->
  map_items_loop decode p fuel pos acc = Ok (acc ++ map view items).
Proof.
  revert fuel pos acc; induction items as [|b bs IH]; intros fuel pos acc H Hp W Hf.
  - destruct fuel as [|f]; [lia|]. simpl in H.
    pose proof (skipn_bound p [] [] _ H Hp) as L; simpl in L.
    cbn [map_items_loop]. cmp_solve. rewrite app_nil_r; reflexivity.
  - destruct fuel as [|f]; [lia|]. simpl in H, Hf. inversion W as [|? ? Wb Ws]; subst.
    pose proof (skipn_bound _ _ _ _ H Hp) as L.
    pose proof (enc_nonempty b) as Ne.
    cbn [map_items_loop]. cmp_solve. cbn [andb].
    rewrite (decode_at p _ pos b H Hp Wb); cbn [bind fst snd].
    pose proof (skipn_after _ _ _ _ H) as H1.
    replace (N.to_nat pos + List.length (enc b))%nat
      with (N.to_nat (pos + N.of_nat (List.length (enc b)))) in H1 by lia.
    destruct bs as [|b' bs'].
    + simpl in L. cmp_solve. simpl; reflexivity.
    + pose proof (enc_nonempty b') as Ne'. simpl in L. rewrite length_app in L.
      cmp_solve.
      rewrite (IH f _ (acc ++ [view b]) H1 ltac:(lia) Ws ltac:(lia)).
      rewrite <- app_assoc; reflexivity.
Qed.
(** The whole-payload form: the loop from position 0 with the decoders'
    fuel, on a payload made of encoded items. *)
Lemma items_decode (items : list B) :
  Forall wf items ->
  map_items_loop decode (List.concat (map enc items))
    (S (List.length (List.concat (map enc items)))) 0 [] = Ok (map view items).
Proof.
  intro W. pose proof (items_length_le items) as L.
  change (map view items) with ([] ++ map view items).
  apply map_items_loop_ok; [reflexivity| simpl; lia | exact W | lia].
Qed.

Lemma items_empty (items : list B) : List.concat (map enc items) = [] -> items = [].
Proof.
  intro E. pose proof (items_length_le items) as L. rewrite E in L.
  destruct items; [reflexivity| simpl in L; lia].
Qed.
End ItemsLoop.


Lemma u128_pow (v : N) : v < 2 ^ 128 -> v < 256 ^ N.of_nat 16.
Proof. simpl; lia. Qed.

Lemma encode_msg_length (m : Message.Message) :
  List.length (encode_msg m) = (36 + List.length (Message.payload m))%nat.
Proof.
  unfold encode_msg, encode_message. rewrite !length_app, !le_bytes_length. lia.
Qed.

Lemma kept_messages_cons (m m' : Message.Message) (bs : list Message.Message) :
  bs <> [] \/ Message.payload m' <> [] ->
  kept_messages (m :: m' :: bs) = m :: kept_messages (m' :: bs).
Proof.
  intro H. destruct bs as [|b bs].
  - destruct H as [H|H]; [congruence|]. unfold kept_messages; simpl.
    destruct (Message.payload m'); [congruence|reflexivity].
  - unfold kept_messages.
    change (removelast (m :: m' :: b :: bs)) with (m :: removelast (m' :: b :: bs)).
    change (last (m :: m' :: b :: bs) ?d) with (last (m' :: b :: bs) d).
    destruct (Message.payload (last (m' :: b :: bs) (Message.Build_Message 0 0 0 0 [])));
      reflexivity.
Qed.

(** The message loop decodes a payload of encoded messages into
    [kept_messages]. *)
Lemma map_messages_loop_ok (ms : list Message.Message) (p : list byte) (fuel : nat)
  (pos : N) (acc : list Message.Message) :
  skipn (N.to_nat pos) p = List.concat (map encode_msg ms) ->
  (N.to_nat pos <= List.length p)%nat -> Forall message_wf ms ->
  (List.length ms < fuel)%nat ->
  map_messages_loop p fuel pos acc = Ok (acc ++ kept_messages ms).
Proof.
  revert fuel pos acc; induction ms as [|m bs IH]; intros fuel pos acc H Hp W Hf.
  - destruct fuel as [|f]; [simpl in Hf; lia|]. simpl in H.
    pose proof (skipn_bound p [] [] _ H Hp) as L; simpl in L.
    cbn [map_messages_loop]. cmp_solve. rewrite app_nil_r; reflexivity.
  - destruct fuel as [|f]; [simpl in Hf; lia|]. simpl in Hf.
    inversion W as [|? ? Wm Ws]; subst.
    cbn [map_messages_loop map List.concat] in *.
    pose proof (skipn_bound _ _ _ _ H Hp) as L. rewrite encode_msg_length in L.
    destruct m as [o t i l body]; unfold message_wf in Wm;
      cbn [Message.offset Message.timestamp Message.id Message.length Message.payload] in *.
    destruct Wm as (Ho & Ht & Hi & -> & Hl).
    unfold encode_msg, encode_message in H;
      cbn [Message.offset Message.timestamp Message.id Message.length Message.payload] in H.
    rewrite <- !app_assoc in H.
    cmp_solve.
    rewrite (read_le_at p _ pos (pos + 8) 8 o H Hp eq_refl (u64_pow _ Ho)); cbn [bind].
    advance H (pos + 8).
    rewrite (read_le_at p _ (pos + 8) (pos + 16) 8 t H0 ltac:(lia) ltac:(simpl; lia)
               (u64_pow _ Ht)); cbn [bind].
    advance H0 (pos + 16).
    rewrite (read_le_at p _ (pos + 16) (pos + 32) 16 i H1 ltac:(lia) ltac:(simpl; lia)
               (u128_pow _ Hi)); cbn [bind].
    advance H1 (pos + 32).
    rewrite (read_le_at p _ (pos + 32) (pos + PROPERTIES_SIZE) 4 _ H2 ltac:(lia)
               ltac:(unfold PROPERTIES_SIZE; simpl; lia) (u32_pow _ Hl)); cbn [bind].
    advance H2 (pos + 36).
    unfold PROPERTIES_SIZE. cmp_solve. cbn [orb].
    rewrite (slice_at p body _ (pos + 36) (pos + 36 + N.of_nat (List.length body)) H3
      ltac:(lia) eq_refl); cbn [bind].
    pose proof (skipn_after _ _ _ _ H3) as H4.
    replace (N.to_nat (pos + 36) + List.length body)%nat
      with (N.to_nat (pos + (36 + N.of_nat (List.length body)))) in H4 by lia.
    destruct bs as [|m' bs'].
    + simpl in L. cmp_solve. reflexivity.
    + cbn [map List.concat] in L, H4. rewrite length_app, encode_msg_length in L.
      assert (Cont : bs' <> [] \/ Message.payload m' <> [] ->
        map_messages_loop p f (pos + (36 + N.of_nat (List.length body)))
          (acc ++ [{| Message.offset := o; Message.timestamp := t; Message.id := i;
                      Message.length := N.of_nat (List.length body);
                      Message.payload := body |}])
        = Ok (acc ++ kept_messages
                ({| Message.offset := o; Message.timestamp := t; Message.id := i;
                    Message.length := N.of_nat (List.length body);
                    Message.payload := body |} :: m' :: bs'))).
      { intro C. rewrite kept_messages_cons by exact C.
        rewrite (IH f _ _ H4 ltac:(lia) Ws ltac:(lia)), <- app_assoc; reflexivity. }
      destruct bs' as [|b2 bs2]; [destruct (Message.payload m') as [|x xs] eqn:Ep|].
      * simpl in L. rewrite ?Ep in L. simpl in L. cmp_solve.
        unfold kept_messages; simpl. rewrite Ep. reflexivity.
      * simpl in L. rewrite ?Ep in L. simpl in L. cmp_solve.
        apply Cont. right; discriminate.
      * cbn [map List.concat] in L. rewrite length_app, encode_msg_length in L.
        cmp_solve. apply Cont. left; discriminate.
Qed.

Lemma encode_stream_nonempty (s : Stream.Stream) : (0 < List.length (encode_stream s))%nat.
Proof. unfold encode_stream; rewrite !length_app, !le_bytes_length; lia. Qed.

Lemma encode_topic_nonempty (t : Topic.Topic) : (0 < List.length (encode_topic t))%nat.
Proof. unfold encode_topic; rewrite !length_app, !le_bytes_length; lia. Qed.


Lemma encode_client_nonempty (c : N * byte * list byte) :
  (0 < List.length (encode_client' c))%nat.
Proof.
  destruct c as [[i t] a]; unfold encode_client', encode_client.
  rewrite !length_app, !le_bytes_length; simpl; lia.
Qed.

Lemma encode_msg_nonempty (m : Message.Message) : (0 < List.length (encode_msg m))%nat.
Proof. rewrite encode_msg_length; lia. Qed.

Section SortPerm.
Context {A : Type} (key : A -> N).


End SortPerm.

(** A stream header whose name is not UTF-8 fails with [InvalidUtf8]. *)
Lemma map_to_stream_bad_utf8 (p rest : list byte) (pos : N) (s : Stream.Stream) :
  skipn (N.to_nat pos) p = encode_stream s ++ rest ->
  (N.to_nat pos <= List.length p)%nat ->
  Stream.id s < u32_max -> Stream.topics_count s < u32_max ->
  N.of_nat (List.length (Stream.name s)) < u32_max ->
  utf8_valid (Stream.name s) = false ->
  map_to_stream p pos = Err InvalidUtf8.
Proof.
  destruct s as [i c nm]; unfold encode_stream;
    cbn [Stream.id Stream.topics_count Stream.name].
  intros H Hp Hi Hc Hn Hu.
  rewrite <- !app_assoc in H.
  pose proof (skipn_bound _ _ _ _ H Hp) as L; rewrite !length_app, !le_bytes_length in L.
  unfold map_to_stream.
  rewrite (read_le_at p _ pos (pos + 4) 4 i H Hp eq_refl (u32_pow _ Hi)); cbn [bind].
  advance H (pos + 4).
  rewrite (read_le_at p _ (pos + 4) (pos + 8) 4 c H0 ltac:(lia) ltac:(simpl; lia) (u32_pow _ Hc)); cbn [bind].
  advance H0 (pos + 8).
  rewrite (read_le_at p _ (pos + 8) (pos + 12) 4 _ H1 ltac:(lia) ltac:(simpl; lia) (u32_pow _ Hn)); cbn [bind].
  advance H1 (pos + 12).
  rewrite (slice_at p nm rest (pos + 12) (pos + 12 + N.of_nat (List.length nm)) H2
    ltac:(lia) eq_refl); cbn [bind].
  unfold from_utf8; rewrite Hu; reflexivity.
Qed.

(** A stream header whose name length runs past the payload panics at
    the name slice. *)
Lemma map_to_stream_short_name (p rest : list byte) (pos i c n : N) :
  skipn (N.to_nat pos) p = le_bytes 4 i ++ le_bytes 4 c ++ le_bytes 4 n ++ rest ->
  (N.to_nat pos <= List.length p)%nat ->
  i < u32_max -> c < u32_max -> n < u32_max -> N.of_nat (List.length rest) < n ->
  map_to_stream p pos = Panic.
Proof.
  intros H Hp Hi Hc Hn Hr.
  pose proof (skipn_bound _ _ _ _ H Hp) as L; rewrite !length_app, !le_bytes_length in L.
  unfold map_to_stream.
  rewrite (read_le_at p _ pos (pos + 4) 4 i H Hp eq_refl (u32_pow _ Hi)); cbn [bind].
  advance H (pos + 4).
  rewrite (read_le_at p _ (pos + 4) (pos + 8) 4 c H0 ltac:(lia) ltac:(simpl; lia) (u32_pow _ Hc)); cbn [bind].
  advance H0 (pos + 8).
  rewrite (read_le_at p _ (pos + 8) (pos + 12) 4 _ H1 ltac:(lia) ltac:(simpl; lia) (u32_pow _ Hn)); cbn [bind].
  unfold slice. cmp_solve. reflexivity.
Qed.

End MapperRoundTrip.

(** Helpers for the validator properties. *)

Module ConfigFacts.
Import ConfigValidation.






End ConfigFacts.

(** * Claims *)

Import DeletePartitionsImpl.

Definition dp_123 : DeletePartitions :=
  {| stream_id := 1; topic_id := 2; partitions_count := 3 |}.

Definition dp_stream0 : DeletePartitions :=
  {| stream_id := 0; topic_id := 1; partitions_count := 1 |}.

(** C1 (counterexample): the value with [stream_id = 0] has no round trip:
    both [from_bytes(as_bytes C)] and [from_str(C.to_string())] return
    [InvalidStreamId], not [Ok C]. *)
Lemma C1_roundtrip_fails_stream_id_zero :
  from_bytes (as_bytes dp_stream0) = Err InvalidStreamId /\
  from_str (to_string dp_stream0) = Err InvalidStreamId /\
  from_bytes (as_bytes dp_stream0) <> Ok dp_stream0.
Proof.
  split; [reflexivity|]. split; [vm_compute; reflexivity|].
  vm_compute; discriminate.
Qed.

(** C1 (amended): for every DeletePartitions value with u32 fields, both
    decoders applied to the encoding return what [validate] decides: [Ok C]
    when [stream_id] and [topic_id] are nonzero (any [partitions_count]),
    the validation error otherwise. *)
Theorem delete_partitions_roundtrip (c : DeletePartitions) :
  dp_wf c ->
  from_bytes (as_bytes c) = (_ <- validate c ;; Ok c) /\
  from_str (to_string c) = (_ <- validate c ;; Ok c) /\
  (stream_id c <> 0 -> topic_id c <> 0 ->
   from_bytes (as_bytes c) = Ok c /\ from_str (to_string c) = Ok c).
Proof.
  intro W.
  pose proof (DeletePartitionsFacts.from_bytes_as_bytes c W) as B.
  pose proof (DeletePartitionsFacts.from_str_to_string c W) as S.
  split; [exact B|]. split; [exact S|].
  intros Hs Ht. rewrite B, S, (DeletePartitionsFacts.validate_nonzero c Hs Ht).
  split; reflexivity.
Qed.

Lemma delete_partitions_roundtrip_witness :
  dp_wf dp_123 /\ from_bytes (as_bytes dp_123) = Ok dp_123 /\
  from_str (to_string dp_123) = Ok dp_123.
Proof.
  assert (W : dp_wf dp_123) by (unfold dp_wf, u32_max; simpl; lia).
  destruct (delete_partitions_roundtrip dp_123 W) as (_ & _ & H).
  destruct (H ltac:(discriminate) ltac:(discriminate)) as [H1 H2].
  exact (conj W (conj H1 H2)).
Defined.

(** C6: [validate] fails with [InvalidStreamId] when [stream_id = 0], with
    [InvalidTopicId] when [stream_id <> 0] and [topic_id = 0], and succeeds
    otherwise, whatever [partitions_count] (0 included); [from_bytes] and
    [from_str] on the encodings of a u32 value return that same result. *)
Theorem delete_partitions_validate_cases (c : DeletePartitions) :
  (stream_id c = 0 -> validate c = Err InvalidStreamId) /\
  (stream_id c <> 0 -> topic_id c = 0 -> validate c = Err InvalidTopicId) /\
  (stream_id c <> 0 -> topic_id c <> 0 -> validate c = Ok tt) /\
  (dp_wf c ->
   from_bytes (as_bytes c) = (_ <- validate c ;; Ok c) /\
   from_str (to_string c) = (_ <- validate c ;; Ok c)).
Proof.
  unfold validate; split; [|split; [|split]].
  - intros ->; reflexivity.
  - intros Hs ->; apply N.eqb_neq in Hs; rewrite Hs; reflexivity.
  - intros Hs Ht; apply N.eqb_neq in Hs, Ht; rewrite Hs, Ht; reflexivity.
  - intro W; split.
    + exact (DeletePartitionsFacts.from_bytes_as_bytes c W).
    + exact (DeletePartitionsFacts.from_str_to_string c W).
Qed.

(** C7: [as_bytes] of [{stream_id: 1, topic_id: 2, partitions_count: 3}] is
    the 12 bytes [01 00 00 00 02 00 00 00 03 00 00 00] and its Display form
    is ["1|2|3"]. *)
Theorem delete_partitions_bytes_example :
  as_bytes dp_123 =
    [x01; x00; x00; x00; x02; x00; x00; x00; x03; x00; x00; x00] /\
  to_string dp_123 = "1|2|3"%string.
Proof. split; vm_compute; reflexivity. Qed.

(** C10: [from_bytes] returns [InvalidCommand] on every slice whose length
    is not 12, and [from_str] on every string whose ['|']-split does not
    have exactly three parts. *)
Theorem delete_partitions_decoders_strict :
  (forall bytes, List.length bytes <> 12%nat -> from_bytes bytes = Err InvalidCommand) /\
  (forall input, List.length (split_on "|"%char input) <> 3%nat ->
     from_str input = Err InvalidCommand).
Proof.
  split.
  - intros bytes H; unfold from_bytes.
    apply Nat.eqb_neq in H; rewrite H; reflexivity.
  - intros input H; unfold from_str.
    apply Nat.eqb_neq in H; rewrite H; reflexivity.
Qed.

(** A 13-byte buffer whose first 12 bytes encode a valid command, and the
    two-part string ["1|2"], are both rejected. *)
Lemma delete_partitions_decoders_strict_witness :
  from_bytes (firstn 12 (as_bytes dp_123 ++ [x00])) = Ok dp_123 /\
  from_bytes (as_bytes dp_123 ++ [x00]) = Err InvalidCommand /\
  from_str "1|2" = Err InvalidCommand.
Proof.
  destruct delete_partitions_decoders_strict as [B S].
  split; [vm_compute; reflexivity|]. split.
  - apply B; vm_compute; discriminate.
  - apply S; vm_compute; discriminate.
Defined.

Import Mapper.

(** Agreement of a [map_to_stream] and a [map_to_topic] result: both fail
    the same way, or both succeed with equal id, count field, name and
    consumed byte count. *)
Definition same_header (r1 : outcome Error (Stream.Stream * N))
  (r2 : outcome Error (Topic.Topic * N)) : Prop :=
  match r1, r2 with
  | Ok (s, n), Ok (t, m) =>
      Stream.id s = Topic.id t /\ Stream.topics_count s = Topic.partitions_count t /\
      Stream.name s = Topic.name t /\ n = m
  | Err e1, Err e2 => e1 = e2
  | Panic, Panic => True
  | _, _ => False
  end.

(** C2: [map_to_stream] and [map_to_topic] agree on every payload and
    position, and [map_topic] (header read by [map_to_stream]) returns what
    it would return with [map_to_topic]. *)
Theorem map_to_stream_topic_equiv :
  (forall payload position,
     same_header (map_to_stream payload position) (map_to_topic payload position)) /\
  (forall payload, map_topic payload = map_topic_via_topic payload).
Proof.
  split.
  - intros payload position.
    rewrite MapperFacts.map_to_stream_as_topic.
    destruct (map_to_topic payload position) as [[t n]| e |]; simpl; auto.
  - intro payload; unfold map_topic, map_topic_via_topic.
    rewrite MapperFacts.map_to_stream_as_topic.
    destruct (map_to_topic payload 0) as [[t n]| e |]; reflexivity.
Qed.

Definition four_zero : list byte := [x00; x00; x00; x00].

(** A one-message payload cut off after 10 of its 41 bytes. *)
Definition truncated_payload : list byte :=
  firstn 10 (four_zero ++ encode_message 5 1 1 [x41]).

(** Two complete messages, the second with an empty body. *)
Definition empty_tail_payload : list byte :=
  four_zero ++ encode_message 5 1 1 [x41] ++ encode_message 6 1 1 [].

(** C3 (code bug): a payload cut off inside the first message's 36-byte
    header makes [map_messages] panic (the slice [payload[4..12]] is out of
    range), and a complete last message whose header ends exactly at the
    end of the payload is dropped (the [position + PROPERTIES_SIZE >= length]
    break). *)
Theorem map_messages_truncation_divergence :
  map_messages truncated_payload = Panic /\
  map_messages empty_tail_payload =
    Ok [{| Message.offset := 5; Message.timestamp := 1; Message.id := 1;
           Message.length := 1; Message.payload := [x41] |}].
Proof. split; vm_compute; reflexivity. Qed.

Definition offset_payload : list byte :=
  [x07; x00; x00; x00; x63; x00; x00; x00; x00; x00; x00; x00].

(** C8: on every payload of at least 12 bytes [map_offset] returns Ok with
    [consumer_id] the little-endian u32 of bytes 0..4 and [offset] the
    little-endian u64 of bytes 4..12; on [07 00 00 00 63 00 00 00 00 00 00 00]
    that is [consumer_id = 7], [offset = 99]. *)
Theorem map_offset_layout :
  (forall payload, (12 <= List.length payload)%nat ->
     map_offset payload =
       Ok {| Offset.consumer_id := le_value (firstn 4 payload);
             Offset.offset := le_value (firstn 8 (skipn 4 payload)) |}) /\
  map_offset offset_payload = Ok {| Offset.consumer_id := 7; Offset.offset := 99 |}.
Proof.
  split; [|vm_compute; reflexivity].
  intros payload H; unfold map_offset.
  rewrite (MapperFacts.read_le_ok payload 0 4 4) by (simpl; lia).
  rewrite (MapperFacts.read_le_ok payload 4 12 8) by (simpl; lia).
  reflexivity.
Qed.

(** Two messages with the same offset 5. *)
Definition duplicate_offset_payload : list byte :=
  four_zero ++ encode_message 5 1 1 [] ++ encode_message 5 1 2 [x41].

(** C9 (counterexample): [map_messages] returns Ok with two messages that
    share offset 5: the offsets are not strictly increasing. *)
Lemma map_messages_duplicate_offsets :
  match map_messages duplicate_offset_payload with
  | Ok [m1; m2] => Message.offset m1 = 5 /\ Message.offset m2 = 5
  | _ => False
  end.
Proof. vm_compute; split; reflexivity. Qed.

(** C9 (amended): whenever [map_messages] returns Ok, the offsets of the
    returned messages are non-decreasing (sorted ascending). *)
Theorem map_messages_sorted (payload : list byte) (messages : list Message.Message) :
  map_messages payload = Ok messages ->
  Sorted (fun a b => Message.offset a <= Message.offset b) messages.
Proof. apply MapperFacts.map_messages_sorted_ok. Qed.

Definition three_message_payload : list byte :=
  four_zero ++ encode_message 9 1 1 [x42] ++ encode_message 5 1 2 [x41]
  ++ encode_message 7 1 3 [x41; x43].

Lemma map_messages_sorted_witness :
  exists messages, map_messages three_message_payload = Ok messages /\
  List.map Message.offset messages = [5; 7; 9] /\
  Sorted (fun a b => Message.offset a <= Message.offset b) messages.
Proof.
  eexists; split; [vm_compute; reflexivity|].
  split; [vm_compute; reflexivity|].
  apply (map_messages_sorted three_message_payload); vm_compute; reflexivity.
Defined.

(** C4 (code bug): [segment.size = 2^32] exceeds the cap [2^31 - 1] and is
    a u64 value, yet [SegmentConfig::validate] accepts it: [as u32] turns it
    into 0. This holds for every u32 value of [MAX_SIZE_BYTES]. *)
Theorem segment_validate_truncated_size :
  SegmentValidation.MAX_SIZE_BYTES < 2 ^ 32 < u64_max /\
  SegmentValidation.validate {| SegmentValidation.size := 2 ^ 32 |} = Ok tt /\
  (forall max_size_bytes, max_size_bytes < u32_max ->
     SegmentValidation.validate_with max_size_bytes
       {| SegmentValidation.size := 2 ^ 32 |} = Ok tt).
Proof.
  split; [unfold SegmentValidation.MAX_SIZE_BYTES, u64_max; lia|].
  split; [vm_compute; reflexivity|].
  intros m _; unfold SegmentValidation.validate_with; simpl.
  rewrite N.Div0.mod_same.
  destruct (m <? 0) eqn:E; [apply N.ltb_lt in E; lia|reflexivity].
Qed.

Import CreateStreamHandler.

Definition session0 : Session := {| client_id := 1; user_id := 1 |}.

(** A broker with no stream whose state log cannot be written. *)
Definition system_log_down : System :=
  {| streams := []; state := {| entries := []; writable := false |} |}.

Definition create_s : CreateStream := {| stream_id := None; name := "s" |}.

(** C5 (counterexample): when appending to the state log fails, the command
    fails and sends nothing, but the stream created in memory stays: the
    registry is not the one from before the command. *)
Lemma create_stream_log_failure_keeps_stream :
  handle_model create_s session0 system_log_down [] =
    (Err IoError,
     {| streams := [{| id := 1; stream_name := "s" |}];
        state := {| entries := []; writable := false |} |},
     []) /\
  streams system_log_down = [].
Proof. split; reflexivity. Qed.

(** C5 (amended): if the stream is created in memory and appending the
    CreateStream entry to the state log then fails, [handle] returns that
    error, sends no response, and leaves the system as [create_stream] made
    it: the created stream is not rolled back. *)
Theorem create_stream_no_rollback
  create_stream apply send_ok_response
  (command : CreateStream) (session : Session) (system system1 : System)
  (stream : Stream) (sent : list Response) (e : IggyError) :
  create_stream session (stream_id command) (name command) system = Ok (system1, stream) ->
  apply (user_id session) (EntryCreateStream command) (state system1) = Err e ->
  handle create_stream apply send_ok_response command session system sent =
    (Err e, system1, sent).
Proof.
  intros Hc Ha; unfold handle; rewrite Hc, Ha; reflexivity.
Qed.

Lemma create_stream_no_rollback_witness :
  create_stream_model session0 None "s" system_log_down =
    Ok ({| streams := [{| id := 1; stream_name := "s" |}];
           state := state system_log_down |},
        {| id := 1; stream_name := "s" |}) /\
  handle_model create_s session0 system_log_down [] =
    (Err IoError,
     {| streams := [{| id := 1; stream_name := "s" |}];
        state := state system_log_down |}, []).
Proof.
  split; [reflexivity|].
  apply (create_stream_no_rollback create_stream_model apply_model
           send_ok_response_model create_s session0 system_log_down
           {| streams := [{| id := 1; stream_name := "s" |}];
              state := state system_log_down |}
           {| id := 1; stream_name := "s" |} [] IoError); reflexivity.
Defined.

(** * Further properties of the mapper *)

Import MapperMore MapperRoundTrip.

(** [map_streams] decodes a payload of encoded streams (u32 fields,
    UTF-8 names) into exactly those streams, sorted by id; the empty
    payload gives no streams. *)
Theorem map_streams_roundtrip (ss : list Stream.Stream) :
  Forall stream_wf ss ->
  map_streams (List.concat (map encode_stream ss)) = Ok (sort_by Stream.id ss).
Proof.
  intro W. unfold map_streams.
  pose proof (items_decode map_to_stream encode_stream (fun s => s) stream_wf
                map_to_stream_at encode_stream_nonempty ss W) as D.
  destruct (List.concat (map encode_stream ss)) as [|b bs] eqn:E.
  - rewrite (items_empty encode_stream encode_stream_nonempty ss E); reflexivity.
  - cbv beta iota. rewrite D, map_id. reflexivity.
Qed.

Definition two_streams : list Stream.Stream :=
  [ {| Stream.id := 2; Stream.topics_count := 0; Stream.name := [x62] |};
    {| Stream.id := 1; Stream.topics_count := 3; Stream.name := [x61] |} ].

Lemma map_streams_roundtrip_witness :
  Forall stream_wf two_streams /\
  map_streams (List.concat (map encode_stream two_streams))
  = Ok (sort_by Stream.id two_streams).
Proof.
  assert (W : Forall stream_wf two_streams)
    by (repeat constructor; unfold u32_max; simpl; lia).
  exact (conj W (map_streams_roundtrip two_streams W)).
Defined.

(** [map_topics] decodes a payload of encoded topics into exactly those
    topics, sorted by id. *)
Theorem map_topics_roundtrip (ts : list Topic.Topic) :
  Forall topic_wf ts ->
  map_topics (List.concat (map encode_topic ts)) = Ok (sort_by Topic.id ts).
Proof.
  intro W. unfold map_topics.
  pose proof (items_decode map_to_topic encode_topic (fun t => t) topic_wf
                map_to_topic_at encode_topic_nonempty ts W) as D.
  destruct (List.concat (map encode_topic ts)) as [|b bs] eqn:E.
  - rewrite (items_empty encode_topic encode_topic_nonempty ts E); reflexivity.
  - cbv beta iota. rewrite D, map_id. reflexivity.
Qed.

Definition two_topics : list Topic.Topic :=
  [ {| Topic.id := 7; Topic.partitions_count := 1; Topic.name := [x74] |};
    {| Topic.id := 5; Topic.partitions_count := 2; Topic.name := [] |} ].

Lemma map_topics_roundtrip_witness :
  Forall topic_wf two_topics /\
  map_topics (List.concat (map encode_topic two_topics)) = Ok (sort_by Topic.id two_topics).
Proof.
  assert (W : Forall topic_wf two_topics)
    by (repeat constructor; unfold u32_max; simpl; lia).
  exact (conj W (map_topics_roundtrip two_topics W)).
Defined.

(** [map_stream] decodes a stream header followed by its encoded topics:
    id, name and [topics_count] come from the header as sent ([topics_count]
    is not compared with the topics that follow), the topics are all
    decoded and sorted by id. *)
Theorem map_stream_roundtrip (s : Stream.Stream) (ts : list Topic.Topic) :
  stream_wf s -> Forall topic_wf ts ->
  map_stream (encode_stream s ++ List.concat (map encode_topic ts)) =
  Ok {| StreamDetails.id := Stream.id s;
        StreamDetails.topics_count := Stream.topics_count s;
        StreamDetails.name := Stream.name s;
        StreamDetails.topics := sort_by Topic.id ts |}.
Proof.
  intros Ws Wt. unfold map_stream.
  set (p := encode_stream s ++ List.concat (map encode_topic ts)).
  rewrite (map_to_stream_at p _ 0 s eq_refl ltac:(simpl; lia) Ws); cbn [bind fst snd].
  pose proof (skipn_after p _ _ 0 (eq_refl : skipn 0 p = _)) as H.
  pose proof (items_length_le encode_topic encode_topic_nonempty ts) as L.
  assert (Lp : List.length p = (List.length (encode_stream s)
                 + List.length (List.concat (map encode_topic ts)))%nat)
    by (unfold p; rewrite length_app; reflexivity).
  replace (0 + List.length (encode_stream s))%nat
    with (N.to_nat (N.of_nat (List.length (encode_stream s)))) in H by lia.
  rewrite (map_items_loop_ok map_to_topic encode_topic (fun t => t) topic_wf
             map_to_topic_at encode_topic_nonempty ts p (S (List.length p)) _ [] H ltac:(lia) Wt
             ltac:(lia)); cbn [bind app].
  rewrite map_id. reflexivity.
Qed.

Definition stream_s1 : Stream.Stream :=
  {| Stream.id := 1; Stream.topics_count := 9; Stream.name := [x73] |}.

Lemma map_stream_roundtrip_witness :
  stream_wf stream_s1 /\ Forall topic_wf two_topics /\
  map_stream (encode_stream stream_s1 ++ List.concat (map encode_topic two_topics)) =
  Ok {| StreamDetails.id := 1; StreamDetails.topics_count := 9;
        StreamDetails.name := [x73];
        StreamDetails.topics := sort_by Topic.id two_topics |}.
Proof.
  assert (Ws : stream_wf stream_s1) by (unfold stream_wf, u32_max; simpl; lia).
  assert (Wt : Forall topic_wf two_topics)
    by (repeat constructor; unfold u32_max; simpl; lia).
  exact (conj Ws (conj Wt (map_stream_roundtrip stream_s1 two_topics Ws Wt))).
Defined.





(** [map_clients] decodes a payload of encoded clients into those clients,
    sorted by id, the transport byte read as ["TCP"] (1), ["QUIC"] (2) or
    ["Unknown"] (any other value). *)
Theorem map_clients_roundtrip (cs : list (N * byte * list byte)) :
  Forall client_wf cs ->
  map_clients (List.concat (map encode_client' cs)) =
  Ok (sort_by ClientInfo.id (map client_view cs)).
Proof.
  intro W. unfold map_clients.
  pose proof (items_decode map_to_client encode_client' client_view client_wf
                map_to_client_at encode_client_nonempty cs W) as D.
  destruct (List.concat (map encode_client' cs)) as [|b bs] eqn:E.
  - rewrite (items_empty encode_client' encode_client_nonempty cs E); reflexivity.
  - cbv beta iota. rewrite D. reflexivity.
Qed.

Definition three_clients : list (N * byte * list byte) :=
  [ (5, x01, [x61]); (2, x02, []); (9, x07, [x62; x63]) ].

Lemma map_clients_roundtrip_witness :
  Forall client_wf three_clients /\
  map_clients (List.concat (map encode_client' three_clients)) =
  Ok [ {| ClientInfo.id := 2; ClientInfo.transport := "QUIC"; ClientInfo.address := [] |};
       {| ClientInfo.id := 5; ClientInfo.transport := "TCP"; ClientInfo.address := [x61] |};
       {| ClientInfo.id := 9; ClientInfo.transport := "Unknown";
          ClientInfo.address := [x62; x63] |} ].
Proof.
  assert (W : Forall client_wf three_clients)
    by (repeat constructor; unfold u32_max; simpl; lia).
  exact (conj W (map_clients_roundtrip three_clients W)).
Defined.

(** [map_messages] skips the first four bytes and decodes the encoded
    messages that follow; it returns them sorted by offset, all of them
    except a last message (of two or more) with an empty body, which the
    loop's [>=] bound drops. *)
Theorem map_messages_roundtrip (h : list byte) (ms : list Message.Message) :
  List.length h = 4%nat -> Forall message_wf ms ->
  map_messages (h ++ List.concat (map encode_msg ms)) =
  Ok (sort_by Message.offset (kept_messages ms)).
Proof.
  intros Hh W. unfold map_messages.
  pose proof (items_length_le encode_msg encode_msg_nonempty ms) as L.
  destruct h as [|b0 [|b1 [|b2 [|b3 [|b4 h]]]]]; simpl in Hh; try discriminate.
  set (X := List.concat (map encode_msg ms)) in *.
  change ([b0; b1; b2; b3] ++ X) with (b0 :: b1 :: b2 :: b3 :: X).
  cbv beta iota.
  rewrite (map_messages_loop_ok ms (b0 :: b1 :: b2 :: b3 :: X)
             (S (List.length (b0 :: b1 :: b2 :: b3 :: X))) 4 [] eq_refl
             ltac:(simpl; lia) W ltac:(simpl; lia)).
  reflexivity.
Qed.

Definition msg (o : N) (body : list byte) : Message.Message :=
  {| Message.offset := o; Message.timestamp := 100 + o; Message.id := o;
     Message.length := N.of_nat (List.length body); Message.payload := body |}.

Lemma map_messages_roundtrip_witness :
  List.length [x00; x00; x00; x00] = 4%nat /\
  Forall message_wf [msg 3 [x61]; msg 1 [x62]; msg 2 []] /\
  map_messages ([x00; x00; x00; x00] ++
                List.concat (map encode_msg [msg 3 [x61]; msg 1 [x62]; msg 2 []]))
  = Ok [msg 1 [x62]; msg 3 [x61]].
Proof.
  assert (W : Forall message_wf [msg 3 [x61]; msg 1 [x62]; msg 2 []])
    by (repeat constructor; unfold u32_max, u64_max; simpl; lia).
  split; [reflexivity|]. split; [exact W|].
  exact (map_messages_roundtrip [x00; x00; x00; x00] _ eq_refl W).
Defined.

(** The only [Err] of the stream decoders: a stream whose name is not
    UTF-8 makes [map_streams] fail with [InvalidUtf8], whatever follows. *)
Theorem map_streams_invalid_utf8 (s : Stream.Stream) (rest : list byte) :
  Stream.id s < u32_max -> Stream.topics_count s < u32_max ->
  N.of_nat (List.length (Stream.name s)) < u32_max ->
  utf8_valid (Stream.name s) = false ->
  map_streams (encode_stream s ++ rest) = Err InvalidUtf8.
Proof.
  intros Hi Hc Hn Hu. pose proof (encode_stream_nonempty s) as Ne.
  remember (encode_stream s ++ rest) as p eqn:Ep.
  assert (Lp : List.length p = (List.length (encode_stream s) + List.length rest)%nat)
    by (rewrite Ep; apply length_app).
  assert (Hm : map_streams p =
    (st <- map_items_loop map_to_stream p (S (List.length p)) 0 [] ;;
     Ok (sort_by Stream.id st))).
  { unfold map_streams. destruct p as [|b bs]; [simpl in Lp; lia|reflexivity]. }
  rewrite Hm. cbn [map_items_loop]. cmp_solve.
  rewrite (map_to_stream_bad_utf8 p rest 0 s Ep ltac:(simpl; lia) Hi Hc Hn Hu).
  reflexivity.
Qed.

Lemma map_streams_invalid_utf8_witness :
  1 < u32_max /\ 0 < u32_max /\ N.of_nat (List.length [xff]) < u32_max /\
  utf8_valid [xff] = false /\
  map_streams (encode_stream {| Stream.id := 1; Stream.topics_count := 0;
                                Stream.name := [xff] |} ++ [x00])
  = Err InvalidUtf8.
Proof.
  assert (H1 : 1 < u32_max) by (unfold u32_max; lia).
  assert (H2 : 0 < u32_max) by (unfold u32_max; lia).
  assert (H3 : N.of_nat (List.length [xff]) < u32_max) by (unfold u32_max; simpl; lia).
  assert (H4 : utf8_valid [xff] = false) by reflexivity.
  exact (conj H1 (conj H2 (conj H3 (conj H4
    (map_streams_invalid_utf8 {| Stream.id := 1; Stream.topics_count := 0;
                                 Stream.name := [xff] |} [x00] H1 H2 H3 H4))))).
Defined.

(** A stream whose declared name length runs past the end of the payload
    makes [map_streams] panic (the name slice is out of range) instead of
    returning an error. *)
Theorem map_streams_short_name_panics (i c n : N) (rest : list byte) :
  i < u32_max -> c < u32_max -> n < u32_max -> N.of_nat (List.length rest) < n ->
  map_streams (le_bytes 4 i ++ le_bytes 4 c ++ le_bytes 4 n ++ rest) = Panic.
Proof.
  intros Hi Hc Hn Hr.
  remember (le_bytes 4 i ++ le_bytes 4 c ++ le_bytes 4 n ++ rest) as p eqn:Ep.
  assert (Lp : List.length p = (12 + List.length rest)%nat)
    by (rewrite Ep, !length_app, !le_bytes_length; lia).
  assert (Hm : map_streams p =
    (st <- map_items_loop map_to_stream p (S (List.length p)) 0 [] ;;
     Ok (sort_by Stream.id st))).
  { unfold map_streams. destruct p as [|b bs]; [simpl in Lp; lia|reflexivity]. }
  rewrite Hm. cbn [map_items_loop]. cmp_solve.
  rewrite (map_to_stream_short_name p rest 0 i c n Ep ltac:(simpl; lia) Hi Hc Hn Hr).
  reflexivity.
Qed.

Lemma map_streams_short_name_panics_witness :
  1 < u32_max /\ 0 < u32_max /\ 5 < u32_max /\ N.of_nat (List.length [x61; x62]) < 5 /\
  map_streams (le_bytes 4 1 ++ le_bytes 4 0 ++ le_bytes 4 5 ++ [x61; x62]) = Panic.
Proof.
  assert (H1 : 1 < u32_max) by (unfold u32_max; lia).
  assert (H2 : 0 < u32_max) by (unfold u32_max; lia).
  assert (H3 : 5 < u32_max) by (unfold u32_max; lia).
  assert (H4 : N.of_nat (List.length [x61; x62]) < 5) by (simpl; lia).
  exact (conj H1 (conj H2 (conj H3 (conj H4
    (map_streams_short_name_panics 1 0 5 [x61; x62] H1 H2 H3 H4))))).
Defined.

(** * Properties of the configuration validators *)

Import ConfigValidation ConfigFacts.






(** [CacheConfigValidationFailure] is returned exactly when the data
    maintenance, personal access token and segment checks pass and the
    cache size exceeds the total memory: the checks after the cache one
    are not reached. *)
Theorem server_config_validate_cache_failure (total_memory : N) (c : Server.ServerConfig) :
  validate_server total_memory c = Err CacheConfigValidationFailure <->
  validate_data_maintenance (Server.data_maintenance c) = Ok tt /\
  validate_personal_access_token (Server.personal_access_token c) = Ok tt /\
  Segment.size (Server.segment c) mod 2 ^ 32 <= SegmentValidation.MAX_SIZE_BYTES /\
  total_memory < Cache.size (Server.cache c).
Proof.
  assert (Hdm : forall d, validate_data_maintenance d <> Err CacheConfigValidationFailure).
  { intro d. unfold validate_data_maintenance, validate_archiver,
      validate_messages_maintenance, validate_state_maintenance.
    repeat match goal with
    | |- context [match ?x with _ => _ end] => destruct x
    | |- context [if ?b then _ else _] => destruct b
    end; cbn [bind]; discriminate. }
  assert (Hp : forall p, validate_personal_access_token p <> Err CacheConfigValidationFailure).
  { intro p. unfold validate_personal_access_token.
    repeat match goal with |- context [if ?b then _ else _] => destruct b end; discriminate. }
  assert (Ht : forall t, validate_telemetry t <> Err CacheConfigValidationFailure).
  { intro t. unfold validate_telemetry.
    repeat match goal with |- context [if ?b then _ else _] => destruct b end; discriminate. }
  unfold validate_server, validate_segment, validate_cache, validate_compression,
    SegmentValidation.validate, SegmentValidation.validate_with;
    cbn [SegmentValidation.size].
  specialize (Hdm (Server.data_maintenance c)).
  destruct (validate_data_maintenance _) as [[]|e|]; cbn [bind];
    [|split; [intro H; injection H as ->; congruence|intros [H _]; discriminate]
     |split; [discriminate|intros [H _]; discriminate]].
  specialize (Hp (Server.personal_access_token c)).
  destruct (validate_personal_access_token _) as [[]|e|]; cbn [bind];
    [|split; [intro H; injection H as ->; congruence|intros (_ & H & _); discriminate]
     |split; [discriminate|intros (_ & H & _); discriminate]].
  destruct (SegmentValidation.MAX_SIZE_BYTES <? _) eqn:Hs; cbn [bind].
  { apply N.ltb_lt in Hs. split; [discriminate|intros (_ & _ & H & _); lia]. }
  apply N.ltb_ge in Hs.
  destruct (total_memory <? _) eqn:Hc; cbn [bind].
  { apply N.ltb_lt in Hc. split; [intros _; auto|reflexivity]. }
  apply N.ltb_ge in Hc.
  split; [|intros (_ & _ & _ & H); lia].
  intro H. exfalso. specialize (Ht (Server.telemetry c)).
  destruct (validate_telemetry _) as [[]|e|]; cbn [bind] in H;
    [|injection H as ->; congruence|discriminate].
  destruct (Server.topic_max_size c); cbn [bind] in H; try discriminate;
    repeat match type of H with context [if ?b then _ else _] => destruct b end;
    discriminate.
Qed.

(** * Properties of the disk archiver *)

Section ArchiveFacts.
Import DiskArchiver.
Variable FS : Type.
Variable path_exists : FS -> string -> bool.
Variable parent : string -> option string.
Variable create_dir_all : string -> FS -> outcome ServerArchiverError FS.
Variable copy : string -> string -> FS -> outcome ServerArchiverError FS.
(** What the archiver relies on from the file system: a successful copy
    creates its destination, and neither call removes a path. *)
Hypothesis copy_creates : forall s d fs fs',
  copy s d fs = Ok fs' -> path_exists fs' d = true.
Hypothesis copy_keeps : forall s d fs fs' x,
  copy s d fs = Ok fs' -> path_exists fs x = true -> path_exists fs' x = true.
Hypothesis create_keeps : forall d fs fs' x,
  create_dir_all d fs = Ok fs' -> path_exists fs x = true -> path_exists fs' x = true.

Lemma archive_loop_keeps (config : DiskArchiverConfig) (files : list string)
  (base : option string) (fs fs' : FS) (x : string) :
  archive_loop FS path_exists parent create_dir_all copy config files base fs = Ok fs' ->
  path_exists fs x = true -> path_exists fs' x = true.
Proof.
  revert fs; induction files as [|f rest IH]; intros fs H Hx; cbn [archive_loop] in H.
  - injection H as <-; exact Hx.
  - destruct (negb (path_exists fs f)); [discriminate|].
    destruct (parent _); [|discriminate].
    destruct (create_dir_all _ fs) as [fs1| |] eqn:C; cbn [bind] in H; try discriminate.
    destruct (copy _ _ fs1) as [fs2| |] eqn:K; cbn [bind] in H; try discriminate.
    exact (IH fs2 H (copy_keeps _ _ _ _ _ K (create_keeps _ _ _ _ C Hx))).
Qed.

(** After [archive] succeeds, [is_archived] reports every archived file,
    with the same base directory. *)
Theorem archive_then_is_archived (config : DiskArchiverConfig) (files : list string)
  (base : option string) (fs fs' : FS) :
  archive FS path_exists parent create_dir_all copy config files base fs = Ok fs' ->
  Forall (fun f => is_archived FS path_exists config f base fs' = Ok true) files.
Proof.
  unfold archive. revert fs; induction files as [|f rest IH]; intros fs H;
    [constructor|].
  cbn [archive_loop] in H.
  destruct (negb (path_exists fs f)); [discriminate|].
  destruct (parent _); [|discriminate].
  destruct (create_dir_all _ fs) as [fs1| |] eqn:C; cbn [bind] in H; try discriminate.
  destruct (copy _ _ fs1) as [fs2| |] eqn:K; cbn [bind] in H; try discriminate.
  constructor; [|exact (IH fs2 H)].
  unfold is_archived. f_equal.
  exact (archive_loop_keeps config rest base fs2 fs' _ H (copy_creates _ _ _ _ K)).
Qed.
End ArchiveFacts.

Definition list_fs_exists (fs : list string) (p : string) : bool :=
  existsb (String.eqb p) fs.

Definition list_fs_copy (s d : string) (fs : list string)
  : outcome DiskArchiver.ServerArchiverError (list string) := Ok (d :: fs).

Definition list_fs_create (d : string) (fs : list string)
  : outcome DiskArchiver.ServerArchiverError (list string) := Ok fs.

Lemma archive_then_is_archived_witness :
  Forall (fun f => DiskArchiver.is_archived (list string) list_fs_exists
                     {| DiskArchiver.path := "arch" |} f None
                     ["arch/b"; "arch/a"; "a"; "b"] = Ok true)%string ["a"; "b"]%string.
Proof.
  apply (archive_then_is_archived (list string) list_fs_exists (fun p => Some p)
           list_fs_create list_fs_copy) with (fs := ["a"; "b"]%string).
  - intros s d fs fs' H. injection H as <-. simpl. rewrite String.eqb_refl. reflexivity.
  - intros s d fs fs' x H Hx. injection H as <-. simpl. rewrite Hx, orb_true_r.
    reflexivity.
  - intros d fs fs' x H Hx. injection H as <-. exact Hx.
  - reflexivity.
Defined.

(** A file given by an absolute path is checked, and copied, at its own
    path: [Path::join] drops the archive directory and the base directory,
    so [archive] copies the file onto itself. *)
Theorem disk_archiver_absolute_file (FS : Type) (path_exists : FS -> string -> bool)
  (parent : string -> option string)
  (create_dir_all : string -> FS -> outcome DiskArchiver.ServerArchiverError FS)
  (copy : string -> string -> FS -> outcome DiskArchiver.ServerArchiverError FS)
  (config : DiskArchiver.DiskArchiverConfig) (base : option string)
  (file rest dir : string) (fs : FS) :
  file = String "/" rest -> path_exists fs file = true -> parent file = Some dir ->
  DiskArchiver.is_archived FS path_exists config file base fs = Ok true /\
  DiskArchiver.archive FS path_exists parent create_dir_all copy config [file] base fs =
  (fs1 <- create_dir_all dir fs ;; fs2 <- copy file file fs1 ;; Ok fs2).
Proof.
  intros -> He Hp. split.
  - unfold DiskArchiver.is_archived. cbn [DiskArchiver.join]. rewrite He. reflexivity.
  - unfold DiskArchiver.archive. cbn [DiskArchiver.archive_loop DiskArchiver.join].
    rewrite He, Hp. reflexivity.
Qed.

Lemma disk_archiver_absolute_file_witness :
  ("/data/s1.log" = String "/" "data/s1.log")%string /\
  list_fs_exists ["/data/s1.log"]%string "/data/s1.log" = true /\
  DiskArchiver.archive (list string) list_fs_exists (fun _ => Some "/data"%string)
    list_fs_create list_fs_copy {| DiskArchiver.path := "arch" |} ["/data/s1.log"]%string
    (Some "b"%string) ["/data/s1.log"]%string
  = Ok ["/data/s1.log"; "/data/s1.log"]%string.
Proof.
  split; [reflexivity|]. split; [reflexivity|].
  destruct (disk_archiver_absolute_file (list string) list_fs_exists
              (fun _ => Some "/data"%string) list_fs_create list_fs_copy
              {| DiskArchiver.path := "arch" |} (Some "b"%string)
              "/data/s1.log" "data/s1.log" "/data" ["/data/s1.log"]%string
              eq_refl eq_refl eq_refl) as [_ H].
  rewrite H. reflexivity.
Defined.

(** * Properties of the retained-batch sampler *)

(** With a nonempty log and an index of 12 to 15 bytes, the third
    [read_u32_le] succeeds and the fourth fails, so
    [second_end_position.unwrap()] panics. *)
Theorem retained_sampler_short_index_panics
  (snapshot_base_offset : list byte -> outcome RetainedBatchSampler.ServerCompatError N)
  (segment_start_offset : N) (index log : list byte) :
  log <> [] -> (12 <= List.length index < 16)%nat ->
  RetainedBatchSampler.try_sample snapshot_base_offset segment_start_offset index log = Panic.
Proof.
  intros Hl Hi. unfold RetainedBatchSampler.try_sample, RetainedBatchSampler.read_u32_le.
  destruct log as [|b bs]; [congruence|]. cbn [List.length Nat.eqb].
  replace (0 + 4 <=? List.length index)%nat with true by (symmetry; apply Nat.leb_le; lia).
  replace (0 + 4 + 4 <=? List.length index)%nat with true by (symmetry; apply Nat.leb_le; lia).
  replace (0 + 4 + 4 + 4 <=? List.length index)%nat with true
    by (symmetry; apply Nat.leb_le; lia).
  replace (0 + 4 + 4 + 4 + 4 <=? List.length index)%nat with false
    by (symmetry; apply Nat.leb_gt; lia).
  reflexivity.
Qed.

Lemma retained_sampler_short_index_panics_witness :
  [x01] <> [] /\ (12 <= List.length (repeat x00 13) < 16)%nat /\
  RetainedBatchSampler.try_sample (fun _ => Ok 0) 0 (repeat x00 13) [x01] = Panic.
Proof.
  split; [discriminate|]. split; [simpl; lia|].
  apply retained_sampler_short_index_panics; [discriminate|simpl; lia].
Defined.

(** What the sampler hands to the snapshot parser, for a nonempty log:
    an index under 8 bytes fails with [UnexpectedEof]; an index of 8 to 11
    bytes has the whole log parsed; an index of 16 bytes or more has the
    first [n] bytes of the log parsed, [n] the fourth u32 of the index (an
    [UnexpectedEof] when the log is shorter). *)
Theorem retained_sampler_buffer
  (snapshot_base_offset : list byte -> outcome RetainedBatchSampler.ServerCompatError N)
  (segment_start_offset : N) (index log : list byte) :
  log <> [] ->
  let check buffer :=
    (base_offset <- snapshot_base_offset buffer ;;
     if negb (base_offset =? segment_start_offset)
     then Err RetainedBatchSampler.InvalidBatchBaseOffsetFormatConversion
     else Ok RetainedBatchSampler.RetainedMessageBatchSchema) in
  let sample := RetainedBatchSampler.try_sample snapshot_base_offset
                  segment_start_offset index log in
  ((List.length index < 8)%nat ->
   sample = Err (RetainedBatchSampler.IoError RetainedBatchSampler.UnexpectedEof)) /\
  ((8 <= List.length index < 12)%nat -> sample = check log) /\
  ((16 <= List.length index)%nat ->
   let n := N.to_nat (le_value (firstn 4 (skipn 12 index))) in
   sample = if (n <=? List.length log)%nat then check (firstn n log)
            else Err (RetainedBatchSampler.IoError RetainedBatchSampler.UnexpectedEof)).
Proof.
  intros Hl check sample. subst check sample.
  unfold RetainedBatchSampler.try_sample, RetainedBatchSampler.read_u32_le,
    RetainedBatchSampler.read_exact.
  destruct log as [|b bs]; [congruence|]. cbn [List.length Nat.eqb].
  split; [|split].
  - intro Hi.
    destruct (0 + 4 <=? List.length index)%nat eqn:E1; [|reflexivity].
    replace (0 + 4 + 4 <=? List.length index)%nat with false
      by (symmetry; apply Nat.leb_gt; lia).
    reflexivity.
  - intro Hi.
    replace (0 + 4 <=? List.length index)%nat with true by (symmetry; apply Nat.leb_le; lia).
    replace (0 + 4 + 4 <=? List.length index)%nat with true
      by (symmetry; apply Nat.leb_le; lia).
    replace (0 + 4 + 4 + 4 <=? List.length index)%nat with false
      by (symmetry; apply Nat.leb_gt; lia).
    replace (List.length index + 4 <=? List.length index)%nat with false
      by (symmetry; apply Nat.leb_gt; lia).
    reflexivity.
  - intro Hi.
    replace (0 + 4 <=? List.length index)%nat with true by (symmetry; apply Nat.leb_le; lia).
    replace (0 + 4 + 4 <=? List.length index)%nat with true
      by (symmetry; apply Nat.leb_le; lia).
    replace (0 + 4 + 4 + 4 <=? List.length index)%nat with true
      by (symmetry; apply Nat.leb_le; lia).
    replace (0 + 4 + 4 + 4 + 4 <=? List.length index)%nat with true
      by (symmetry; apply Nat.leb_le; lia).
    cbn [bind RetainedBatchSampler.is_err andb].
    change (0 + 4 + 4 + 4)%nat with 12%nat.
    destruct (N.to_nat _ <=? _)%nat; reflexivity.
Qed.

Lemma retained_sampler_buffer_witness :
  [x01; x02; x03] <> [] /\
  RetainedBatchSampler.try_sample (fun buf => Ok (N.of_nat (List.length buf))) 2
    ([x00; x00; x00; x00; x00; x00; x00; x00; x00; x00; x00; x00] ++ le_bytes 4 2)
    [x01; x02; x03]
  = Ok RetainedBatchSampler.RetainedMessageBatchSchema.
Proof.
  assert (Hl : [x01; x02; x03] <> []) by discriminate.
  split; [exact Hl|].
  destruct (retained_sampler_buffer (fun buf => Ok (N.of_nat (List.length buf))) 2
              ([x00; x00; x00; x00; x00; x00; x00; x00; x00; x00; x00; x00] ++ le_bytes 4 2)
              [x01; x02; x03] Hl) as (_ & _ & H).
  rewrite (H ltac:(simpl; lia)). reflexivity.
Defined.
